(** * The FIFO store of go-cache (fifo/fifo.go)

    A shallow embedding of the [fifo] struct and of its methods, and the
    properties of the store that the specification states about it.

    The store is a [container/list] of element pointers together with a
    [map[string]*list.Element].  Both the list and the map hold POINTERS to
    the same elements, and [Set] on a known key mutates the entry an element
    points to, so the entries live in an explicit heap addressed by pointer:
    the list is the sequence of pointers from front to back, the map sends a
    key to a pointer, and the heap sends a pointer to the entry. *)

From stdpp Require Import gmap strings list fin_maps.
From Stdlib Require Import ZArith Lia.

(** ** Go's [int] (64 bits, two's complement, silent wrap-around) *)

Module GoInt.

Definition MinInt : Z := (- 2 ^ 63)%Z.
Definition MaxInt : Z := (2 ^ 63 - 1)%Z.

Definition wrap (z : Z) : Z := ((z + 2 ^ 63) `mod` 2 ^ 64 - 2 ^ 63)%Z.

Definition add (a b : Z) : Z := wrap (a + b).
Definition sub (a b : Z) : Z := wrap (a - b).

Definition in_range (z : Z) : Prop := (MinInt ≤ z ≤ MaxInt)%Z.

End GoInt.

(** ** [container/list], as the sequence of element pointers, front first *)

Module GoList.

(** An element pointer is the address of the element in the heap. *)
Abbreviation ptr := nat (only parsing).

(** [l.Remove(e)]: unlinks [e] when it is an element of [l]. *)
Fixpoint Remove (e : ptr) (l : list ptr) : list ptr :=
  match l with
  | [] => []
  | x :: l' => if decide (x = e) then l' else x :: Remove e l'
  end.

(** [l.PushBack(v)]: the new element is linked after the last one. *)
Definition PushBack (e : ptr) (l : list ptr) : list ptr := l ++ [e].

(** [l.MoveToBack(e)]: nothing when [e] is not an element of [l] or is
    already the last one. *)
Definition MoveToBack (e : ptr) (l : list ptr) : list ptr :=
  if decide (e ∈ l) then
    if decide (last l = Some e) then l else Remove e l ++ [e]
  else l.

(** [l.Front()]: [nil] on the empty list. *)
Definition Front (l : list ptr) : option ptr := head l.

End GoList.

Import GoInt GoList.

(** ** The store *)

(** A Go [interface{}] value: [nil], or a dynamic value. *)
Inductive iface (V : Type) : Type :=
| GoNil : iface V
| GoVal (v : V) : iface V.
Arguments GoNil {V}.
Arguments GoVal {V} v.

Section Fifo.

(** The dynamic values that are stored, the function values used as eviction
    callbacks, and [cache.CalcLen], the byte size of a value, which package
    [cache] defines. *)
Variable V : Type.
Variable CB : Type.
Variable CalcLen : iface V → Z.

Record entry : Type := mkEntry {
  key : string;
  value : iface V
}.

Record fifo : Type := mkFifo {
  maxBytes : Z;
  onEvicted : option CB;
  usedBytes : Z;
  ll : list ptr;
  cache : gmap string ptr;
  (** the entries that the elements of [ll] and [cache] point to *)
  heap : list entry
}.

(** A call [f.onEvicted(key, value)], with the store as it is when the call
    is made. *)
Record call : Type := mkCall {
  fn : CB;
  arg_key : string;
  arg_value : iface V;
  at_call : fifo
}.

Definition set_usedBytes (n : Z) (f : fifo) : fifo :=
  mkFifo (maxBytes f) (onEvicted f) n (ll f) (cache f) (heap f).
Definition set_ll (l : list ptr) (f : fifo) : fifo :=
  mkFifo (maxBytes f) (onEvicted f) (usedBytes f) l (cache f) (heap f).
Definition set_cache (m : gmap string ptr) (f : fifo) : fifo :=
  mkFifo (maxBytes f) (onEvicted f) (usedBytes f) (ll f) m (heap f).
Definition set_heap (h : list entry) (f : fifo) : fifo :=
  mkFifo (maxBytes f) (onEvicted f) (usedBytes f) (ll f) (cache f) h.

(** [func (e *entry) Len() int] *)
Definition entry_Len (en : entry) : Z := CalcLen (value en).

(** [func New(maxBytes int, onEvicted func(...)) cache.Cache] *)
Definition New (maxBytes : Z) (onEvicted : option CB) : fifo :=
  mkFifo maxBytes onEvicted 0 [] ∅ [].

(** [func (f *fifo) removeElement(e *list.Element)] *)
Definition removeElement (e : option ptr) (f : fifo) : fifo * list call :=
  match e with
  | None => (f, [])
  | Some e =>
    let f := set_ll (Remove e (ll f)) f in
    match heap f !! e with
    | None => (f, [])  (* no element without its entry *)
    | Some en =>
      let f := set_usedBytes (sub (usedBytes f) (entry_Len en)) f in
      let f := set_cache (delete (key en) (cache f)) f in
      match onEvicted f with
      | Some cb => (f, [mkCall cb (key en) (value en) f])
      | None => (f, [])
      end
    end
  end.

(** [func (f *fifo) DelOldest()] *)
Definition DelOldest (f : fifo) : fifo * list call :=
  removeElement (Front (ll f)) f.

(** [func (f *fifo) Del(key string)] *)
Definition Del (k : string) (f : fifo) : fifo * list call :=
  match cache f !! k with
  | Some e => removeElement (Some e) f
  | None => (f, [])
  end.

(** [func (f *fifo) Set(key string, value interface{})] *)
Definition Set_ (k : string) (v : iface V) (f : fifo) : fifo * list call :=
  match cache f !! k with
  | Some e =>
    let f := set_ll (MoveToBack e (ll f)) f in
    match heap f !! e with
    | None => (f, [])  (* no element without its entry *)
    | Some en =>
      let f :=
        set_usedBytes (add (sub (usedBytes f) (CalcLen (value en))) (CalcLen v)) f in
      let f := set_heap (<[e := mkEntry (key en) v]> (heap f)) f in
      (f, [])
    end
  | None =>
    let en := mkEntry k v in
    let e := length (heap f) in
    let f := set_heap (heap f ++ [en]) f in
    let f := set_ll (PushBack e (ll f)) f in
    let f := set_cache (<[k := e]> (cache f)) f in
    let f := set_usedBytes (add (usedBytes f) (entry_Len en)) f in
    if (maxBytes f >? 0)%Z && (usedBytes f >? maxBytes f)%Z
    then DelOldest f
    else (f, [])
  end.

(** The store at two points of [Set]: on the new-key path once the entry
    is linked, indexed and counted, before the capacity check; and at the
    return of the known-key path, [e] being the element of the key and [en]
    its entry before the call. *)
Definition pushed (k : string) (v : iface V) (f : fifo) : fifo :=
  mkFifo (maxBytes f) (onEvicted f) (add (usedBytes f) (CalcLen v))
    (ll f ++ [length (heap f)]) (<[k := length (heap f)]> (cache f))
    (heap f ++ [mkEntry k v]).

Definition updated (e : ptr) (en : entry) (v : iface V) (f : fifo) : fifo :=
  mkFifo (maxBytes f) (onEvicted f)
    (add (sub (usedBytes f) (CalcLen (value en))) (CalcLen v))
    (MoveToBack e (ll f)) (cache f) (<[e := mkEntry (key en) v]> (heap f)).

(** [func (f *fifo) Get(key string) interface{}]; the receiver is a pointer,
    so the store after the call is part of the result. *)
Definition Get (k : string) (f : fifo) : iface V * fifo :=
  match cache f !! k with
  | Some e =>
    match heap f !! e with
    | Some en => (value en, f)
    | None => (GoNil, f)  (* no element without its entry *)
    end
  | None => (GoNil, f)
  end.

(** [func (f *fifo) Len() int] *)
Definition Len (f : fifo) : Z * fifo := (Z.of_nat (length (ll f)), f).

(** ** Runs of the store *)

Inductive op : Type :=
| OpSet (k : string) (v : iface V)
| OpGet (k : string)
| OpDel (k : string)
| OpDelOldest
| OpLen.

Definition step (o : op) (f : fifo) : fifo * list call :=
  match o with
  | OpSet k v => Set_ k v f
  | OpGet k => ((Get k f).2, [])
  | OpDel k => Del k f
  | OpDelOldest => DelOldest f
  | OpLen => ((Len f).2, [])
  end.

(** The store and the callback calls, in order, after the operations [os]. *)
Fixpoint run (os : list op) (f : fifo) : fifo * list call :=
  match os with
  | [] => (f, [])
  | o :: os' =>
    let '(f1, c1) := step o f in
    let '(f2, c2) := run os' f1 in
    (f2, c1 ++ c2)
  end.

(** A store that [New] made and that was used through its methods only. *)
Definition reachable (f : fifo) : Prop :=
  ∃ m cb os, f = (run os (New m cb)).1.

(** ** What the claims speak of *)

Definition sumZ (l : list Z) : Z := foldr Z.add 0%Z l.

(** The byte size of the entry at [p]. *)
Definition size_at (f : fifo) (p : ptr) : Z :=
  match heap f !! p with
  | Some en => entry_Len en
  | None => 0%Z
  end.

(** The byte sizes of the entries that the key index holds. *)
Definition indexed_sizes (f : fifo) : list Z :=
  (λ kp : string * ptr, size_at f kp.2) <$> map_to_list (cache f).

(** The sequence and the key index agree: every element is linked once and
    has its entry, the index sends a key to the one linked element whose
    entry has that key, and [usedBytes] is the [int] sum of the sizes of the
    linked entries. *)
Record wf (f : fifo) : Prop := mkWf {
  wf_nodup : NoDup (ll f);
  wf_heap : ∀ p, p ∈ ll f → is_Some (heap f !! p);
  wf_index : ∀ k p,
    cache f !! k = Some p ↔ p ∈ ll f ∧ ∃ en, heap f !! p = Some en ∧ key en = k;
  wf_used : usedBytes f = wrap (sumZ (size_at f <$> ll f))
}.

(** The entries in eviction order, oldest first. *)
Definition entries (f : fifo) : list (option entry) :=
  (λ p, heap f !! p) <$> ll f.

(** The entry that a call of [onEvicted] was given. *)
Definition call_entry (c : call) : entry := mkEntry (arg_key c) (arg_value c).

(** The elements that were unlinked between the stores [f] and [f']: linked
    in [f] or allocated since, and not linked in [f']. *)
Definition unlinked (f f' : fifo) : list ptr :=
  filter (λ p, p ∉ ll f')
    (ll f ++ seq (length (heap f)) (length (heap f') - length (heap f))).

(** The calls [cs] of the callback [cb], made while the store went from [f]
    to [f'], account for the removed entries: one call for each unlinked
    element, with the key and value of its entry, made when the store was
    already [f'], and as many calls as entries that were linked or created
    and are linked no more. *)
Definition accounted (cb : CB) (f f' : fifo) (cs : list call) : Prop :=
  (λ c, Some (call_entry c)) <$> cs = (λ p, heap f' !! p) <$> unlinked f f' ∧
  Forall (λ c, fn c = cb ∧ at_call c = f') cs ∧
  onEvicted f' = Some cb ∧
  (length cs + length (ll f') + length (heap f) =
   length (ll f) + length (heap f'))%nat.

(** The keys and values that the [Set] calls among [os] were given. *)
Definition set_args (os : list op) : list (string * iface V) :=
  omap (λ o, match o with OpSet k v => Some (k, v) | _ => None end) os.

(** [Del] and [DelOldest], the operations that remove on request. *)
Definition is_removal (o : op) : bool :=
  match o with
  | OpDel _ | OpDelOldest => true
  | _ => false
  end.

End Fifo.

Arguments mkEntry {V} key value.
Arguments key {V} e.
Arguments value {V} e.
Arguments mkFifo {V CB} maxBytes onEvicted usedBytes ll cache heap.
Arguments maxBytes {V CB} f.
Arguments onEvicted {V CB} f.
Arguments usedBytes {V CB} f.
Arguments ll {V CB} f.
Arguments cache {V CB} f.
Arguments heap {V CB} f.
Arguments mkCall {V CB} fn arg_key arg_value at_call.
Arguments fn {V CB} c.
Arguments arg_key {V CB} c.
Arguments arg_value {V CB} c.
Arguments at_call {V CB} c.
Arguments New {V} CB maxBytes onEvicted.
Arguments OpSet {V} k v.
Arguments OpGet {V} k.
Arguments OpDel {V} k.
Arguments OpDelOldest {V}.
Arguments OpLen {V}.
Arguments removeElement {V CB} CalcLen e f.
Arguments DelOldest {V CB} CalcLen f.
Arguments Del {V CB} CalcLen k f.
Arguments Set_ {V CB} CalcLen k v f.
Arguments step {V CB} CalcLen o f.
Arguments run {V CB} CalcLen os f.
Arguments reachable {V CB} CalcLen f.
Arguments size_at {V CB} CalcLen f p.
Arguments indexed_sizes {V CB} CalcLen f.
Arguments wf {V CB} CalcLen f.
Arguments wf_nodup {V CB CalcLen f} w.
Arguments wf_heap {V CB CalcLen f} w p.
Arguments wf_index {V CB CalcLen f} w k p.
Arguments wf_used {V CB CalcLen f} w.
Arguments pushed {V CB} CalcLen k v f.
Arguments updated {V CB} CalcLen e en v f.
Arguments call_entry {V CB} c.
Arguments unlinked {V CB} f f'.
Arguments accounted {V CB} cb f f' cs.
Arguments set_args {V} os.
Arguments is_removal {V} o.
Arguments set_usedBytes {V CB} n f.
Arguments set_ll {V CB} l f.
Arguments set_cache {V CB} m f.
Arguments set_heap {V CB} h f.
Arguments entry_Len {V} CalcLen en.
Arguments Get {V CB} k f.
Arguments Len {V CB} f.
Arguments entries {V CB} f.

(** ** A concrete store, for examples: values are byte strings given by
    their length, and [CalcLen] is that length ([nil] has size 0). *)

Module Demo.

Definition size (v : iface Z) : Z :=
  match v with
  | GoNil => 0%Z
  | GoVal n => n
  end.

Definition cb : Type := unit.

Definition fresh (m : Z) : fifo Z cb := New cb m (Some tt).

Definition after (os : list (op Z)) (m : Z) : fifo Z cb * list (call Z cb) :=
  run size os (fresh m).

End Demo.


(** ** Arithmetic of [int] *)

Section GoIntFacts.

Lemma wrap_mod (a : Z) : (wrap a `mod` 2 ^ 64 = a `mod` 2 ^ 64)%Z.
Proof.
  unfold wrap.
  rewrite <- Zminus_mod_idemp_l, Z.mod_mod by lia.
  rewrite Zminus_mod_idemp_l. f_equal. lia.
Qed.

Lemma wrap_congr (a b : Z) :
  (a `mod` 2 ^ 64 = b `mod` 2 ^ 64)%Z → wrap a = wrap b.
Proof.
  intros H. unfold wrap.
  rewrite <- (Zplus_mod_idemp_l a), <- (Zplus_mod_idemp_l b), H. done.
Qed.

Lemma wrap_add_l (a b : Z) : wrap (wrap a + b) = wrap (a + b).
Proof.
  apply wrap_congr.
  rewrite <- Zplus_mod_idemp_l, wrap_mod, Zplus_mod_idemp_l. done.
Qed.

Lemma wrap_sub_l (a b : Z) : wrap (wrap a - b) = wrap (a - b).
Proof.
  apply wrap_congr.
  rewrite <- Zminus_mod_idemp_l, wrap_mod, Zminus_mod_idemp_l. done.
Qed.

Lemma wrap_in_range (a : Z) : in_range a → wrap a = a.
Proof.
  unfold in_range, MinInt, MaxInt, wrap. intros H.
  rewrite Z.mod_small; lia.
Qed.

Lemma wrap_range (a : Z) : in_range (wrap a).
Proof.
  unfold in_range, MinInt, MaxInt, wrap.
  pose proof (Z.mod_pos_bound (a + 2 ^ 63) (2 ^ 64)). lia.
Qed.

End GoIntFacts.

(** ** The list of element pointers *)

Section GoListFacts.

Implicit Types (e x : ptr) (l : list ptr).

Lemma Remove_notin e l : e ∉ l → Remove e l = l.
Proof.
  induction l as [|x l IH]; simpl; [done|].
  intros Hn. apply not_elem_of_cons in Hn as [Hne Hn].
  destruct (decide (x = e)); [congruence|]. by rewrite IH.
Qed.

Lemma Remove_perm e l : e ∈ l → l ≡ₚ e :: Remove e l.
Proof.
  induction l as [|x l IH]; simpl.
  - by intros ?%elem_of_nil.
  - intros Hin. destruct (decide (x = e)) as [->|Hne]; [done|].
    apply elem_of_cons in Hin as [->|Hin]; [done|].
    rewrite (IH Hin) at 1. apply Permutation_swap.
Qed.

Lemma Remove_NoDup e l : NoDup l → NoDup (Remove e l).
Proof.
  intros Hnd. destruct (decide (e ∈ l)) as [Hin|Hn].
  - rewrite (Remove_perm _ _ Hin) in Hnd. by apply NoDup_cons in Hnd as [_ ?].
  - by rewrite Remove_notin.
Qed.

Lemma elem_of_Remove e x l : NoDup l → x ∈ Remove e l ↔ x ∈ l ∧ x ≠ e.
Proof.
  induction l as [|y l IH]; simpl; intros Hnd.
  - split; [by intros ?%elem_of_nil | by intros [?%elem_of_nil _]].
  - apply NoDup_cons in Hnd as [Hy Hnd].
    destruct (decide (y = e)) as [->|Hne].
    + rewrite elem_of_cons. split.
      * intros Hx. split; [by right|]. by intros ->.
      * by intros [[->|Hx] Hxe].
    + rewrite !elem_of_cons, (IH Hnd). split.
      * intros [->|[Hx Hxe]]; [by split; [left|] | by split; [right|]].
      * intros [[->|Hx] Hxe]; [by left | by right].
Qed.

Lemma Remove_length e l : e ∈ l → S (length (Remove e l)) = length l.
Proof. intros Hin. by rewrite (Remove_perm _ _ Hin) at 2. Qed.

Lemma Remove_app_last e l : e ∉ l → Remove e (l ++ [e]) = l.
Proof.
  induction l as [|x l IH]; simpl.
  - intros _. by rewrite decide_True.
  - intros Hn. apply not_elem_of_cons in Hn as [Hne Hn].
    destruct (decide (x = e)); [congruence|]. by rewrite IH.
Qed.

Lemma MoveToBack_perm e l : MoveToBack e l ≡ₚ l.
Proof.
  unfold MoveToBack. destruct (decide (e ∈ l)) as [Hin|]; [|done].
  destruct (decide (last l = Some e)); [done|].
  rewrite (Remove_perm _ _ Hin) at 2. by rewrite Permutation_app_comm.
Qed.

(** With every element linked once, [MoveToBack] always yields the other
    elements in their order, then [e]. *)
Lemma MoveToBack_spec e l :
  NoDup l → e ∈ l → MoveToBack e l = Remove e l ++ [e].
Proof.
  intros Hnd Hin. unfold MoveToBack. rewrite decide_True by done.
  destruct (decide (last l = Some e)) as [Hl|]; [|done].
  apply last_Some in Hl as [l' ->].
  apply NoDup_app in Hnd as (_ & Hd & _).
  rewrite Remove_app_last; [done|].
  intros Hx. apply (Hd _ Hx). by apply list_elem_of_singleton.
Qed.

End GoListFacts.

(** ** The invariant of the store *)

Section Invariant.

Context {V CB : Type} (CalcLen : iface V → Z).
Implicit Types (f : fifo V CB) (e p : ptr) (k : string) (v : iface V).
Implicit Types (en : entry V).

Lemma sumZ_perm (l1 l2 : list Z) : l1 ≡ₚ l2 → sumZ l1 = sumZ l2.
Proof.
  induction 1 as [|x l1 l2 _ IH|x y l|l1 l2 l3 _ IH1 _ IH2]; simpl; lia.
Qed.

Lemma sumZ_cons (x : Z) (l : list Z) : sumZ (x :: l) = (x + sumZ l)%Z.
Proof. done. Qed.

Lemma sumZ_app (l1 l2 : list Z) : sumZ (l1 ++ l2) = (sumZ l1 + sumZ l2)%Z.
Proof. induction l1 as [|x l1 IH]; simpl; lia. Qed.

Lemma New_wf m (cb : option CB) : wf CalcLen (New CB m cb).
Proof.
  split; simpl.
  - constructor.
  - by intros p ?%elem_of_nil.
  - intros k p. rewrite lookup_empty. split; [done|].
    by intros [?%elem_of_nil _].
  - done.
Qed.

(** What [removeElement] leaves of the store: [e] unlinked, its size taken
    off [usedBytes], its key out of the index. *)
Lemma removeElement_store f e en :
  heap f !! e = Some en →
  (removeElement CalcLen (Some e) f).1 =
  mkFifo (maxBytes f) (onEvicted f) (sub (usedBytes f) (CalcLen (value en)))
    (Remove e (ll f)) (delete (key en) (cache f)) (heap f).
Proof.
  intros He. unfold removeElement. simpl. rewrite He. simpl.
  by destruct (onEvicted f) eqn:Hcb; simpl; unfold set_cache, set_usedBytes, set_ll; simpl; rewrite ?Hcb.
Qed.

Lemma removeElement_wf f e :
  wf CalcLen f → e ∈ ll f → wf CalcLen (removeElement CalcLen (Some e) f).1.
Proof.
  intros [Hnd Hheap Hidx Hused] Hin.
  destruct (Hheap e Hin) as [en He].
  rewrite (removeElement_store f e en He).
  split; simpl.
  - by apply Remove_NoDup.
  - intros p [Hp _]%elem_of_Remove; [|done]. by apply Hheap.
  - intros k p. rewrite elem_of_Remove by done. split.
    + intros Hk. apply lookup_delete_Some in Hk as [Hne Hk].
      apply Hidx in Hk as (Hp & en' & Hen' & Hkey).
      split; [split; [done|] | by exists en'].
      intros ->. congruence.
    + intros ((Hp & Hpe) & en' & Hen' & Hkey).
      apply lookup_delete_Some. split.
      * intros Heq. apply Hpe.
        assert (cache f !! k = Some p) as H1 by (apply Hidx; eauto).
        assert (cache f !! k = Some e) as H2 by (apply Hidx; eauto).
        congruence.
      * apply Hidx; eauto.
  - unfold sub. rewrite Hused, wrap_sub_l. f_equal.
    rewrite (sumZ_perm _ _ (fmap_Permutation (size_at CalcLen f) _ _
      (Remove_perm e (ll f) Hin))).
    rewrite fmap_cons, sumZ_cons. unfold size_at at 1. rewrite He.
    unfold entry_Len.
    change (size_at CalcLen (mkFifo _ _ _ _ _ (heap f))) with (size_at CalcLen f).
    lia.
Qed.

Lemma DelOldest_wf f : wf CalcLen f → wf CalcLen (DelOldest CalcLen f).1.
Proof.
  intros Hwf. unfold DelOldest, Front.
  destruct (ll f) as [|e l] eqn:Hl; simpl; [done|].
  apply removeElement_wf; [done|]. rewrite Hl. by left.
Qed.

Lemma Del_wf f k : wf CalcLen f → wf CalcLen (Del CalcLen k f).1.
Proof.
  intros Hwf. unfold Del.
  destruct (cache f !! k) as [e|] eqn:Hk; [|done].
  apply removeElement_wf; [done|]. by apply (wf_index Hwf) in Hk as [? _].
Qed.

Lemma Set_known f k v e en :
  cache f !! k = Some e → heap f !! e = Some en →
  Set_ CalcLen k v f = (updated CalcLen e en v f, []).
Proof. intros Hk He. unfold Set_. rewrite Hk. simpl. by rewrite He. Qed.

Lemma Set_new f k v :
  cache f !! k = None →
  Set_ CalcLen k v f =
  if (maxBytes f >? 0)%Z && (usedBytes (pushed CalcLen k v f) >? maxBytes f)%Z
  then DelOldest CalcLen (pushed CalcLen k v f)
  else (pushed CalcLen k v f, []).
Proof. intros Hk. unfold Set_. by rewrite Hk. Qed.

Lemma wf_lt f p : wf CalcLen f → p ∈ ll f → (p < length (heap f))%nat.
Proof.
  intros Hwf Hp. destruct (wf_heap Hwf p Hp) as [en Hen].
  by apply lookup_lt_Some in Hen.
Qed.

Lemma size_at_pushed f k v p :
  (p < length (heap f))%nat →
  size_at CalcLen (pushed CalcLen k v f) p = size_at CalcLen f p.
Proof. intros Hp. unfold size_at. simpl. by rewrite lookup_app_l. Qed.

Lemma size_at_updated_ne f e en v p :
  p ≠ e → size_at CalcLen (updated CalcLen e en v f) p = size_at CalcLen f p.
Proof.
  intros Hp. unfold size_at. simpl. by rewrite list_lookup_insert_ne.
Qed.

Lemma fmap_ext_elem {A B} (g h : A → B) (l : list A) :
  (∀ x, x ∈ l → g x = h x) → g <$> l = h <$> l.
Proof.
  intros H. apply list_fmap_ext. intros i x Hi. apply H.
  by apply list_elem_of_lookup_2 in Hi.
Qed.

Lemma pushed_wf f k v :
  wf CalcLen f → cache f !! k = None → wf CalcLen (pushed CalcLen k v f).
Proof.
  intros Hwf Hk. pose proof (λ p, wf_lt f p Hwf) as Hlt.
  destruct Hwf as [Hnd Hheap Hidx Hused].
  split; simpl.
  - apply NoDup_app. split; [done|]. split; [|apply NoDup_singleton].
    intros x Hx ->%list_elem_of_singleton. apply Hlt in Hx. lia.
  - intros p [Hp| ->%list_elem_of_singleton]%elem_of_app.
    + rewrite lookup_app_l by auto. auto.
    + rewrite list_lookup_middle; eauto.
  - intros k' p. rewrite elem_of_app, list_elem_of_singleton. split.
    + intros Hk'. apply lookup_insert_Some in Hk' as [[<- <-]|[Hne Hk']].
      * split; [by right|]. eexists. by rewrite list_lookup_middle.
      * apply Hidx in Hk' as (Hp & en & Hen & Hkey).
        split; [by left|]. exists en. by rewrite lookup_app_l by auto.
    + intros ([Hp| ->] & en & Hen & Hkey).
      * rewrite lookup_app_l in Hen by auto.
        assert (cache f !! k' = Some p) as Hc by (apply Hidx; eauto).
        rewrite lookup_insert_ne; [done|]. congruence.
      * rewrite list_lookup_middle in Hen by done.
        injection Hen as <-. simpl in Hkey. subst k'.
        apply lookup_insert_eq.
  - unfold add. rewrite Hused, wrap_add_l. f_equal.
    rewrite fmap_app, sumZ_app.
    rewrite (fmap_ext_elem (size_at CalcLen (pushed CalcLen k v f))
      (size_at CalcLen f)) by (intros; apply size_at_pushed; auto).
    f_equal. simpl. unfold size_at. simpl.
    rewrite list_lookup_middle by done. unfold entry_Len. simpl. lia.
Qed.

Lemma updated_wf f k v e en :
  wf CalcLen f → cache f !! k = Some e → heap f !! e = Some en →
  wf CalcLen (updated CalcLen e en v f).
Proof.
  intros [Hnd Hheap Hidx Hused] Hk He.
  assert (e ∈ ll f) as Hin by (by apply Hidx in Hk as [? _]).
  assert (e < length (heap f))%nat as Hlt by (by apply lookup_lt_Some in He).
  split; simpl.
  - by rewrite MoveToBack_perm.
  - intros p. rewrite MoveToBack_perm. intros Hp.
    destruct (decide (p = e)) as [->|Hne].
    + rewrite list_lookup_insert_eq by done. eauto.
    + rewrite list_lookup_insert_ne by done. auto.
  - intros k' p. rewrite MoveToBack_perm, Hidx.
    destruct (decide (p = e)) as [->|Hne].
    + rewrite list_lookup_insert_eq by done. split.
      * intros (Hp & en' & Hen' & Hkey). split; [done|].
        eexists. split; [done|]. simpl. congruence.
      * intros (Hp & en' & Hen' & Hkey). split; [done|].
        exists en. split; [done|]. injection Hen' as <-. done.
    + by rewrite list_lookup_insert_ne by done.
  - unfold add, sub. rewrite Hused, wrap_sub_l, wrap_add_l. f_equal.
    rewrite (sumZ_perm _ _ (fmap_Permutation _ _ _ (MoveToBack_perm e (ll f)))).
    rewrite (sumZ_perm _ _ (fmap_Permutation (size_at CalcLen f) _ _
      (Remove_perm e (ll f) Hin))).
    rewrite (sumZ_perm _ _ (fmap_Permutation
      (size_at CalcLen (updated CalcLen e en v f)) _ _
      (Remove_perm e (ll f) Hin))).
    rewrite !fmap_cons, !sumZ_cons.
    rewrite (fmap_ext_elem (size_at CalcLen (updated CalcLen e en v f))
      (size_at CalcLen f) (Remove e (ll f))).
    + unfold size_at at 1 3. simpl. rewrite He.
      rewrite list_lookup_insert_eq by done. unfold entry_Len. simpl. lia.
    + intros x [_ Hx]%elem_of_Remove; [|done]. by apply size_at_updated_ne.
Qed.

Lemma Set_wf f k v : wf CalcLen f → wf CalcLen (Set_ CalcLen k v f).1.
Proof.
  intros Hwf. destruct (cache f !! k) as [e|] eqn:Hk.
  - assert (e ∈ ll f) as Hin by (by apply (wf_index Hwf) in Hk as [? _]).
    destruct (wf_heap Hwf e Hin) as [en He].
    rewrite (Set_known f k v e en Hk He). simpl. by eapply updated_wf.
  - rewrite (Set_new f k v Hk).
    pose proof (pushed_wf f k v Hwf Hk) as Hp.
    destruct (_ && _); [by apply DelOldest_wf | done].
Qed.

Lemma step_wf f (o : op V) : wf CalcLen f → wf CalcLen (step CalcLen o f).1.
Proof.
  intros Hwf. destruct o as [k v|k|k| |]; simpl.
  - by apply Set_wf.
  - unfold Get. by repeat case_match.
  - by apply Del_wf.
  - by apply DelOldest_wf.
  - done.
Qed.

Lemma run_wf (os : list (op V)) f :
  wf CalcLen f → wf CalcLen (run CalcLen os f).1.
Proof.
  revert f. induction os as [|o os IH]; intros f Hwf; simpl; [done|].
  pose proof (step_wf f o Hwf) as H1.
  destruct (step CalcLen o f) as [f1 c1]. simpl in H1.
  pose proof (IH f1 H1) as H2.
  by destruct (run CalcLen os f1) as [f2 c2].
Qed.

Lemma reachable_wf f : reachable CalcLen f → wf CalcLen f.
Proof. intros (m & cb & os & ->). apply run_wf, New_wf. Qed.

Lemma reachable_step f (o : op V) :
  reachable CalcLen f → reachable CalcLen (step CalcLen o f).1.
Proof.
  intros (m & cb & os & ->). exists m, cb, (os ++ [o]).
  generalize (New (V:=V) CB m cb). induction os as [|o' os IH]; intros g; simpl.
  - by destruct (step CalcLen o g).
  - destruct (step CalcLen o' g) as [g1 c1]. specialize (IH g1).
    destruct (run CalcLen os g1) as [g2 c2].
    destruct (run CalcLen (os ++ [o]) g1) as [g3 c3]. done.
Qed.

End Invariant.

(** ** Byte accounting *)

Section Accounting.

Context {V CB : Type} (CalcLen : iface V → Z).
Implicit Types (f : fifo V CB) (e p : ptr) (k : string) (v : iface V).

(** The key index points at the linked elements, each one once. *)
Lemma wf_index_perm f : wf CalcLen f → (map_to_list (cache f)).*2 ≡ₚ ll f.
Proof.
  intros Hwf. apply NoDup_Permutation.
  - apply NoDup_fmap_2_strong; [|apply NoDup_map_to_list].
    intros [k1 p1] [k2 p2] H1 H2 Heq. simpl in Heq. subst p2.
    apply elem_of_map_to_list in H1, H2.
    apply (wf_index Hwf) in H1 as (_ & en1 & He1 & <-).
    apply (wf_index Hwf) in H2 as (_ & en2 & He2 & <-).
    congruence.
  - apply (wf_nodup Hwf).
  - intros p. rewrite list_elem_of_fmap. split.
    + intros ([k p'] & -> & Hkp). apply elem_of_map_to_list in Hkp.
      by apply (wf_index Hwf) in Hkp as [? _].
    + intros Hp. destruct (wf_heap Hwf p Hp) as [en Hen].
      exists (key en, p). split; [done|].
      apply elem_of_map_to_list, (wf_index Hwf). eauto.
Qed.

Lemma wf_indexed_sizes f :
  wf CalcLen f → indexed_sizes CalcLen f ≡ₚ size_at CalcLen f <$> ll f.
Proof.
  intros Hwf. rewrite <- (wf_index_perm f Hwf).
  unfold indexed_sizes. by rewrite <- list_fmap_compose.
Qed.

(** C2. After any sequence of [Set], [Del] and [DelOldest] calls (and of
    [Get] and [Len] calls between them) on a store that [New] made,
    [usedBytes] is the sum of [CalcLen] of the values of the entries that
    the key index holds, keys not counted.  The sum is the one of the
    program, in [int]; whenever the exact sum is an [int] itself,
    [usedBytes] is that exact sum. *)
Theorem C2_usedBytes_is_indexed_sum (m : Z) (cb : option CB) (os : list (op V)) :
  let f := (run CalcLen os (New CB m cb)).1 in
  usedBytes f = wrap (sumZ (indexed_sizes CalcLen f)) ∧
  (in_range (sumZ (indexed_sizes CalcLen f)) →
   usedBytes f = sumZ (indexed_sizes CalcLen f)).
Proof.
  intros f.
  assert (wf CalcLen f) as Hwf by (apply run_wf, New_wf).
  assert (usedBytes f = wrap (sumZ (indexed_sizes CalcLen f))) as Hw.
  { rewrite (wf_used Hwf). f_equal. symmetry.
    apply sumZ_perm, wf_indexed_sizes, Hwf. }
  split; [done|]. intros Hr. by rewrite Hw, wrap_in_range.
Qed.

End Accounting.

(** ** [Set], [Get], [Del] and [DelOldest] *)

Section Methods.

Context {V CB : Type} (CalcLen : iface V → Z).
Implicit Types (f : fifo V CB) (e p : ptr) (k : string) (v : iface V).

Lemma reachable_known f k e :
  reachable CalcLen f → cache f !! k = Some e →
  e ∈ ll f ∧ ∃ old, heap f !! e = Some (mkEntry k old).
Proof.
  intros Hwf%reachable_wf Hk.
  apply (wf_index Hwf) in Hk as (Hin & [k' old] & He & Hkey).
  simpl in Hkey. subst k'. eauto.
Qed.

Lemma removeElement_calls f e en :
  heap f !! e = Some en →
  (removeElement CalcLen (Some e) f).2 =
  match onEvicted f with
  | Some cb => [mkCall cb (key en) (value en) (removeElement CalcLen (Some e) f).1]
  | None => []
  end.
Proof.
  intros He. unfold removeElement. simpl. rewrite He. simpl.
  by destruct (onEvicted f).
Qed.

(** C4. [Set] of a key that the store holds keeps the element of the key
    and puts the new value in its entry ([Get] then returns it), changes
    [usedBytes] by the size of the new value minus the size of the old one,
    makes the element the last of the eviction order with the other elements
    in their order before it, and leaves [Len], the index and every other
    entry as they were. *)
Theorem C4_Set_known_key_in_place f k v e :
  reachable CalcLen f → cache f !! k = Some e →
  ∃ old, heap f !! e = Some (mkEntry k old) ∧
    let f' := (Set_ CalcLen k v f).1 in
    cache f' = cache f ∧
    heap f' !! e = Some (mkEntry k v) ∧
    (∀ p, p ≠ e → heap f' !! p = heap f !! p) ∧
    (Get k f').1 = v ∧
    usedBytes f' = wrap (usedBytes f + (CalcLen v - CalcLen old)) ∧
    ll f' = Remove e (ll f) ++ [e] ∧
    (Len f').1 = (Len f).1.
Proof.
  intros Hr Hk. pose proof (reachable_wf _ _ Hr) as Hwf.
  destruct (reachable_known f k e Hr Hk) as (Hin & old & He).
  exists old. split; [done|].
  rewrite (Set_known CalcLen f k v e _ Hk He). simpl.
  assert (e < length (heap f))%nat as Hlt by (by apply lookup_lt_Some in He).
  assert (<[e:=mkEntry k v]> (heap f) !! e = Some (mkEntry k v)) as He'
    by (by apply list_lookup_insert_eq).
  repeat split.
  - done.
  - intros p Hp. by apply list_lookup_insert_ne.
  - unfold Get. simpl. by rewrite Hk, He'.
  - unfold add, sub. rewrite wrap_add_l. f_equal. lia.
  - apply MoveToBack_spec; [apply (wf_nodup Hwf) | done].
  - f_equal. rewrite (MoveToBack_perm e (ll f)). done.
Qed.

(** C10. [Set] of a key that the store holds takes the return of the
    known-key path: it calls [onEvicted] for nothing, the old value
    included, and unlinks nothing: the same elements stay linked, under the
    same index, whatever [usedBytes] has become against [maxBytes]. *)
Theorem C10_Set_known_key_evicts_nothing f k v e :
  reachable CalcLen f → cache f !! k = Some e →
  (Set_ CalcLen k v f).2 = [] ∧
  let f' := (Set_ CalcLen k v f).1 in
  ll f' ≡ₚ ll f ∧ cache f' = cache f ∧ (Len f').1 = (Len f).1 ∧
  maxBytes f' = maxBytes f.
Proof.
  intros Hr Hk.
  destruct (reachable_known f k e Hr Hk) as (Hin & old & He).
  rewrite (Set_known CalcLen f k v e _ Hk He). simpl.
  repeat split.
  - apply MoveToBack_perm.
  - f_equal. by rewrite (MoveToBack_perm e (ll f)).
Qed.

(** C9. [Del] of a key that the store does not hold, and [DelOldest] on a
    store with no entry, return the store as it was and call [onEvicted]
    for nothing. *)
Theorem C9_Del_absent_DelOldest_empty_noop f k :
  (cache f !! k = None → Del CalcLen k f = (f, [])) ∧
  ((Len f).1 = 0%Z → DelOldest CalcLen f = (f, [])).
Proof.
  split.
  - intros Hk. unfold Del. by rewrite Hk.
  - unfold Len, DelOldest. simpl. intros Hl.
    destruct (ll f) as [|e l]; [done|]. simpl in Hl. lia.
Qed.

(** C8. [Get] returns the store it was given: the eviction order, the key
    index, [usedBytes] and [Len] are those of before the call, whether the
    store holds the key or not, and no callback is called. *)
Theorem C8_Get_leaves_store f k :
  let f' := (Get k f).2 in
  f' = f ∧ ll f' = ll f ∧ cache f' = cache f ∧ usedBytes f' = usedBytes f ∧
  (Len f').1 = (Len f).1 ∧ step CalcLen (OpGet k) f = (f, []).
Proof.
  assert ((Get k f).2 = f) as Hg by (unfold Get; by repeat case_match).
  simpl. by rewrite Hg.
Qed.

(** C7, as the code has it. [Get] returns the stored value of a key that
    the store holds and [nil] for a key that it does not hold; so a result
    other than [nil] shows that the key is held, and [nil] is the result
    both for a key that is not held and for a held key whose value is
    [nil]. *)
Theorem C7_Get_nil_means_absent_or_nil f k :
  reachable CalcLen f →
  (∀ e, cache f !! k = Some e →
     ∃ old, heap f !! e = Some (mkEntry k old) ∧ (Get k f).1 = old) ∧
  (cache f !! k = None → (Get k f).1 = GoNil) ∧
  ((Get k f).1 ≠ GoNil → is_Some (cache f !! k)).
Proof.
  intros Hr. repeat split.
  - intros e Hk. destruct (reachable_known f k e Hr Hk) as (_ & old & He).
    exists old. split; [done|]. unfold Get. by rewrite Hk, He.
  - intros Hk. unfold Get. by rewrite Hk.
  - unfold Get. destruct (cache f !! k); [eauto|]. simpl. congruence.
Qed.

(** C3, as the code has it. On a store with [maxBytes > 0] and no entry,
    [Set] of a value whose size alone exceeds [maxBytes] links the entry and
    then evicts the head, which is this entry: the store has no entry after
    the call, the key is not held, [usedBytes] is 0, and [onEvicted], when
    there is one, was called once, with the new key and value. *)
Theorem C3_oversized_Set_on_empty_store f k v :
  reachable CalcLen f → (Len f).1 = 0%Z → (maxBytes f > 0)%Z →
  in_range (CalcLen v) → (CalcLen v > maxBytes f)%Z →
  let f' := (Set_ CalcLen k v f).1 in
  (Len f').1 = 0%Z ∧ cache f' !! k = None ∧ (Get k f').1 = GoNil ∧
  usedBytes f' = 0%Z ∧
  (Set_ CalcLen k v f).2 =
    match onEvicted f with
    | Some cb => [mkCall cb k v f']
    | None => []
    end.
Proof.
  intros Hwf%reachable_wf Hl Hm Hr Hv.
  assert (ll f = []) as Hll.
  { unfold Len in Hl. simpl in Hl. destruct (ll f); [done|]. simpl in Hl. lia. }
  assert (cache f !! k = None) as Hk.
  { destruct (cache f !! k) as [e|] eqn:Hk; [|done].
    apply (wf_index Hwf) in Hk as [Hin _]. rewrite Hll in Hin.
    by apply elem_of_nil in Hin. }
  assert (usedBytes f = 0%Z) as Hu by (by rewrite (wf_used Hwf), Hll).
  rewrite (Set_new CalcLen f k v Hk).
  assert (usedBytes (pushed CalcLen k v f) = CalcLen v) as Hu'.
  { simpl. rewrite Hu. unfold add. by rewrite Z.add_0_l, wrap_in_range. }
  rewrite Hu'.
  replace (maxBytes f >? 0)%Z with true by (symmetry; apply Z.gtb_lt; lia).
  replace (CalcLen v >? maxBytes f)%Z with true by (symmetry; apply Z.gtb_lt; lia).
  cbn [andb].
  assert (DelOldest CalcLen (pushed CalcLen k v f) =
          removeElement CalcLen (Some (length (heap f))) (pushed CalcLen k v f))
    as -> by (unfold DelOldest; cbn [ll pushed]; rewrite Hll; reflexivity).
  assert (heap (pushed CalcLen k v f) !! length (heap f) = Some (mkEntry k v))
    as He by (simpl; by apply list_lookup_middle).
  rewrite (removeElement_calls _ _ _ He).
  rewrite (removeElement_store _ _ _ _ He). simpl.
  rewrite Hll, Hu. simpl. rewrite decide_True by done.
  repeat split.
  - apply lookup_delete_eq.
  - unfold Get. simpl. by rewrite lookup_delete_eq.
  - unfold sub, add. rewrite wrap_sub_l. by replace (0 + _ - _)%Z with 0%Z by lia.
Qed.

End Methods.

(** ** The eviction callback *)

Section Callback.

Context {V CB : Type} (CalcLen : iface V → Z).
Implicit Types (f g : fifo V CB) (e p : ptr) (k : string) (v : iface V).
Implicit Types (cb : CB) (cs : list (call V CB)).

Lemma elem_of_unlinked f f' p :
  p ∈ unlinked f f' ↔
  ((p ∉ ll f') ∧ (p ∈ ll f ∨ (length (heap f) ≤ p < length (heap f'))%nat)).
Proof.
  unfold unlinked. rewrite list_elem_of_filter, elem_of_app, elem_of_seq.
  split; intros [H1 [H2|H2]]; (split; [done|]); auto; right; lia.
Qed.

Lemma unlinked_NoDup f f' : wf CalcLen f → NoDup (unlinked f f').
Proof.
  intros Hwf. apply NoDup_filter, NoDup_app.
  split; [apply (wf_nodup Hwf)|]. split; [|apply NoDup_seq].
  intros p Hp%(wf_lt CalcLen f p Hwf) Hs%elem_of_seq. lia.
Qed.

Lemma unlinked_nil f f' :
  (∀ p, p ∈ ll f → p ∈ ll f') →
  (∀ p, (length (heap f) ≤ p < length (heap f'))%nat → p ∈ ll f') →
  unlinked f f' = [].
Proof.
  intros H1 H2. apply elem_of_nil_inv. intros p.
  rewrite elem_of_unlinked. intros [Hn [Hp|Hp]]; auto.
Qed.

Lemma unlinked_one f f' e :
  wf CalcLen f →
  (∀ p, ((p ∉ ll f') ∧ (p ∈ ll f ∨ (length (heap f) ≤ p < length (heap f'))%nat))
        ↔ p = e) →
  unlinked f f' = [e].
Proof.
  intros Hwf H. apply Permutation_singleton_r, NoDup_Permutation.
  - by apply unlinked_NoDup.
  - apply NoDup_singleton.
  - intros p. by rewrite elem_of_unlinked, list_elem_of_singleton.
Qed.

Lemma accounted_same f cb :
  onEvicted f = Some cb → accounted cb f f [].
Proof.
  intros Hcb. unfold accounted. rewrite unlinked_nil.
  - done.
  - done.
  - intros p. lia.
Qed.

Lemma accounted_removeElement f cb e :
  wf CalcLen f → onEvicted f = Some cb → e ∈ ll f →
  accounted cb f (removeElement CalcLen (Some e) f).1
    (removeElement CalcLen (Some e) f).2.
Proof.
  intros Hwf Hcb Hin. destruct (wf_heap Hwf e Hin) as [en He].
  rewrite (removeElement_calls CalcLen f e en He), Hcb.
  rewrite (removeElement_store CalcLen f e en He).
  unfold accounted. simpl. rewrite (unlinked_one _ _ e Hwf).
  - split; [|split; [|split]]; simpl.
    + rewrite He. by destruct en.
    + by repeat constructor.
    + done.
    + pose proof (Remove_length e (ll f) Hin). lia.
  - intros p. simpl. rewrite elem_of_Remove by apply (wf_nodup Hwf). split.
    + intros [Hn [Hp|Hp]]; [|lia].
      destruct (decide (p = e)); [done|]. by destruct Hn.
    + intros ->. split; [|by left]. by intros [_ ?].
Qed.

Lemma accounted_updated f cb e en v :
  onEvicted f = Some cb → accounted cb f (updated CalcLen e en v f) [].
Proof.
  intros Hcb. unfold accounted. rewrite unlinked_nil; simpl.
  - do 3 (split; [done|]). rewrite length_insert.
    by rewrite (MoveToBack_perm e (ll f)).
  - intros p. by rewrite MoveToBack_perm.
  - intros p. rewrite length_insert. lia.
Qed.

Lemma accounted_pushed f cb k v :
  onEvicted f = Some cb → accounted cb f (pushed CalcLen k v f) [].
Proof.
  intros Hcb. unfold accounted. rewrite unlinked_nil; simpl.
  - do 3 (split; [done|]). rewrite !length_app. simpl. lia.
  - intros p Hp. apply elem_of_app. by left.
  - intros p. rewrite length_app. simpl. intros Hp.
    apply elem_of_app. right. apply list_elem_of_singleton. lia.
Qed.

(** What was unlinked since the new entry was linked was unlinked since
    before. *)
Lemma accounted_after_pushed f f' cb k v cs :
  length (heap f') = length (heap (pushed CalcLen k v f)) →
  accounted cb (pushed CalcLen k v f) f' cs → accounted cb f f' cs.
Proof.
  intros Hlen (H1 & H2 & H3 & H4). unfold accounted.
  assert (unlinked f f' = unlinked (pushed CalcLen k v f) f') as ->.
  { unfold unlinked. rewrite Hlen. simpl. rewrite length_app. simpl.
    replace (length (heap f) + 1 - length (heap f))%nat with 1%nat by lia.
    rewrite Nat.sub_diag. simpl. by rewrite app_nil_r. }
  do 3 (split; [done|]).
  rewrite Hlen in *. simpl in *. rewrite !length_app in *. simpl in *. lia.
Qed.

Lemma removeElement_heap f (o : option ptr) :
  heap (removeElement CalcLen o f).1 = heap f.
Proof.
  unfold removeElement. destruct o as [e|]; [|done]. simpl.
  destruct (heap f !! e); [|done]. by destruct (onEvicted f).
Qed.

Lemma accounted_DelOldest f cb :
  wf CalcLen f → onEvicted f = Some cb →
  accounted cb f (DelOldest CalcLen f).1 (DelOldest CalcLen f).2.
Proof.
  intros Hwf Hcb. unfold DelOldest, Front.
  destruct (ll f) as [|e l] eqn:Hl; simpl.
  - by apply accounted_same.
  - apply accounted_removeElement; [done..|]. rewrite Hl. by left.
Qed.

Lemma accounted_step f cb (o : op V) :
  wf CalcLen f → onEvicted f = Some cb →
  accounted cb f (step CalcLen o f).1 (step CalcLen o f).2.
Proof.
  intros Hwf Hcb. destruct o as [k v|k|k| |]; simpl.
  - destruct (cache f !! k) as [e|] eqn:Hk.
    + assert (e ∈ ll f) as Hin by (by apply (wf_index Hwf) in Hk as [? _]).
      destruct (wf_heap Hwf e Hin) as [en He].
      rewrite (Set_known CalcLen f k v e en Hk He). simpl.
      by apply accounted_updated.
    + rewrite (Set_new CalcLen f k v Hk).
      destruct (_ && _).
      * apply (accounted_after_pushed f _ cb k v).
        { unfold DelOldest. by rewrite removeElement_heap. }
        apply accounted_DelOldest; [by apply pushed_wf|done].
      * simpl. by apply accounted_pushed.
  - assert ((Get k f).2 = f) as -> by (unfold Get; by repeat case_match).
    by apply accounted_same.
  - unfold Del. destruct (cache f !! k) as [e|] eqn:Hk.
    + apply accounted_removeElement; [done..|].
      by apply (wf_index Hwf) in Hk as [? _].
    + by apply accounted_same.
  - by apply accounted_DelOldest.
  - by apply accounted_same.
Qed.

Lemma run_count (os : list (op V)) f cb :
  wf CalcLen f → onEvicted f = Some cb →
  (length (run CalcLen os f).2 + length (ll (run CalcLen os f).1)
     + length (heap f) =
   length (ll f) + length (heap (run CalcLen os f).1))%nat.
Proof.
  revert f. induction os as [|o os IH]; intros f Hwf Hcb; simpl; [lia|].
  pose proof (accounted_step f cb o Hwf Hcb) as (_ & _ & Hcb1 & Hn1).
  pose proof (step_wf CalcLen f o Hwf) as Hwf1.
  destruct (step CalcLen o f) as [f1 c1]. simpl in *.
  specialize (IH f1 Hwf1 Hcb1).
  destruct (run CalcLen os f1) as [f2 c2]. simpl in *.
  rewrite length_app. lia.
Qed.

(** C5. On a store with an [onEvicted] callback, the eviction path
    ([removeElement] of a linked element) unlinks the element, takes its key
    out of the index and its size off [usedBytes], and then calls the
    callback once, with the key and value of the removed entry, the store
    being already without it.  Every operation ([Set] with its capacity
    eviction, [Del], [DelOldest], and [Get] and [Len]) makes exactly one
    such call for each entry it removes and no other call; and over any
    run, the calls and the entries still present add up to the entries
    that were present or created: an entry still in the store was never
    passed to the callback. *)
Theorem C5_onEvicted_once_per_removed_entry f cb :
  reachable CalcLen f → onEvicted f = Some cb →
  (∀ e, e ∈ ll f →
     ∃ en, heap f !! e = Some en ∧
       let f' := (removeElement CalcLen (Some e) f).1 in
       (removeElement CalcLen (Some e) f).2 =
         [mkCall cb (key en) (value en) f'] ∧
       (e ∉ ll f') ∧ cache f' !! key en = None ∧
       usedBytes f' = sub (usedBytes f) (CalcLen (value en))) ∧
  (∀ o : op V, accounted cb f (step CalcLen o f).1 (step CalcLen o f).2) ∧
  (∀ os : list (op V),
     (length (run CalcLen os f).2 + length (ll (run CalcLen os f).1)
        + length (heap f) =
      length (ll f) + length (heap (run CalcLen os f).1))%nat).
Proof.
  intros Hwf%reachable_wf Hcb. split; [|split].
  - intros e Hin. destruct (wf_heap Hwf e Hin) as [en He].
    exists en. split; [done|].
    rewrite (removeElement_calls CalcLen f e en He), Hcb.
    rewrite (removeElement_store CalcLen f e en He). simpl.
    split; [done|]. split; [|split; [apply lookup_delete_eq | done]].
    rewrite elem_of_Remove by apply (wf_nodup Hwf). by intros [_ ?].
  - intros o. by apply (accounted_step f cb o).
  - intros os. by apply (run_count os f cb).
Qed.

End Callback.

(** ** Using the store *)

Section Usage.

Context {V CB : Type} (CalcLen : iface V → Z).
Implicit Types (f g : fifo V CB) (e p : ptr) (k : string) (v : iface V).
Implicit Types (en : entry V).

Lemma Set_new_within f k v :
  cache f !! k = None →
  (maxBytes f ≤ 0 ∨ add (usedBytes f) (CalcLen v) ≤ maxBytes f)%Z →
  Set_ CalcLen k v f = (pushed CalcLen k v f, []).
Proof.
  intros Hk Hc. rewrite (Set_new CalcLen f k v Hk). simpl.
  destruct (maxBytes f >? 0)%Z eqn:H1; [|done].
  destruct (add (usedBytes f) (CalcLen v) >? maxBytes f)%Z eqn:H2; [|done].
  apply Z.gtb_lt in H1, H2. lia.
Qed.

Lemma Set_new_over f k v :
  cache f !! k = None →
  (maxBytes f > 0)%Z → (add (usedBytes f) (CalcLen v) > maxBytes f)%Z →
  Set_ CalcLen k v f = DelOldest CalcLen (pushed CalcLen k v f).
Proof.
  intros Hk H1 H2. rewrite (Set_new CalcLen f k v Hk). simpl.
  replace (maxBytes f >? 0)%Z with true by (symmetry; apply Z.gtb_lt; lia).
  by replace (add (usedBytes f) (CalcLen v) >? maxBytes f)%Z with true
    by (symmetry; apply Z.gtb_lt; lia).
Qed.

Lemma Get_fst f k :
  (Get k f).1 =
  match cache f !! k with
  | Some e => match heap f !! e with Some en => value en | None => GoNil end
  | None => GoNil
  end.
Proof. unfold Get. by repeat case_match. Qed.

Lemma Get_removed_ne f e en k :
  heap f !! e = Some en → k ≠ key en →
  (Get k (removeElement CalcLen (Some e) f).1).1 = (Get k f).1.
Proof.
  intros He Hk. rewrite (removeElement_store CalcLen f e en He).
  rewrite !Get_fst. simpl.
  rewrite lookup_delete_ne; [done|]. intros Heq. by apply Hk.
Qed.

Lemma Get_removed f e en :
  heap f !! e = Some en →
  (Get (key en) (removeElement CalcLen (Some e) f).1).1 = GoNil.
Proof.
  intros He. rewrite (removeElement_store CalcLen f e en He).
  rewrite !Get_fst. simpl. by rewrite lookup_delete_eq.
Qed.

Lemma Get_pushed_ne f k v k' :
  wf CalcLen f → k' ≠ k →
  (Get k' (pushed CalcLen k v f)).1 = (Get k' f).1.
Proof.
  intros Hwf Hk. rewrite !Get_fst. simpl. rewrite lookup_insert_ne by done.
  destruct (cache f !! k') as [e|] eqn:Hc; [|done].
  apply (wf_index Hwf) in Hc as [Hin _].
  by rewrite lookup_app_l by (by apply (wf_lt CalcLen f e Hwf)).
Qed.

Lemma Get_pushed f k v : (Get k (pushed CalcLen k v f)).1 = v.
Proof.
  rewrite !Get_fst. simpl. rewrite lookup_insert_eq.
  by rewrite list_lookup_middle.
Qed.

Lemma Get_updated_ne f k v e en k' :
  wf CalcLen f → cache f !! k = Some e → heap f !! e = Some en → k' ≠ k →
  (Get k' (updated CalcLen e en v f)).1 = (Get k' f).1.
Proof.
  intros Hwf Hk He Hne. rewrite !Get_fst. simpl.
  destruct (cache f !! k') as [e'|] eqn:Hc; [|done].
  rewrite list_lookup_insert_ne; [done|]. intros ->.
  apply (wf_index Hwf) in Hc as (_ & en1 & H1 & <-).
  apply (wf_index Hwf) in Hk as (_ & en2 & H2 & <-).
  congruence.
Qed.

Lemma Get_updated f k v e en :
  cache f !! k = Some e → heap f !! e = Some en →
  (Get k (updated CalcLen e en v f)).1 = v.
Proof.
  intros Hk He. rewrite !Get_fst. simpl. rewrite Hk.
  by rewrite list_lookup_insert_eq by (by apply lookup_lt_Some in He).
Qed.

Lemma entries_pushed f k v :
  wf CalcLen f →
  entries (pushed CalcLen k v f) = entries f ++ [Some (mkEntry k v)].
Proof.
  intros Hwf. unfold entries. simpl. rewrite fmap_app. simpl.
  rewrite list_lookup_middle by done. f_equal.
  apply fmap_ext_elem. intros p Hp.
  by rewrite lookup_app_l by (by apply (wf_lt CalcLen f p Hwf)).
Qed.

Lemma entries_removed_head f e l en :
  ll f = e :: l → heap f !! e = Some en →
  ll (removeElement CalcLen (Some e) f).1 = l ∧
  entries (removeElement CalcLen (Some e) f).1 = tail (entries f).
Proof.
  intros Hl He. rewrite (removeElement_store CalcLen f e en He).
  unfold entries. simpl. rewrite Hl. simpl. by rewrite decide_True.
Qed.

(** A linked element is the one that the index holds for the key of its
    entry. *)
Lemma wf_linked_key f e en :
  wf CalcLen f → e ∈ ll f → heap f !! e = Some en →
  cache f !! key en = Some e.
Proof. intros Hwf Hin He. apply (wf_index Hwf). eauto. Qed.

(** The sequence and the key index are always consistent: no element is
    linked twice, the index holds a key exactly for the linked element whose
    entry has that key, and [Len] is the number of keys of the index. *)
Theorem index_and_sequence_consistent f :
  reachable CalcLen f →
  NoDup (ll f) ∧
  (∀ k p, cache f !! k = Some p ↔
          p ∈ ll f ∧ ∃ v, heap f !! p = Some (mkEntry k v)) ∧
  (Len f).1 = Z.of_nat (size (cache f)).
Proof.
  intros Hwf%reachable_wf. split; [apply (wf_nodup Hwf)|]. split.
  - intros k p. rewrite (wf_index Hwf). split.
    + intros (Hp & [k' v] & He & Hk). simpl in Hk. subst. eauto.
    + intros (Hp & v & He). split; [done|]. by exists (mkEntry k v).
  - unfold Len. simpl. f_equal.
    rewrite <- (wf_index_perm CalcLen f Hwf), length_fmap.
    by rewrite length_map_to_list.
Qed.

(** [Set] of a key that the store does not hold, when the capacity check
    passes (no limit, or the new total within [maxBytes]): the entry is
    appended as the newest, nothing is evicted, [Len] grows by one,
    [usedBytes] by the size of the value, [Get] of the key returns the
    value and [Get] of every other key is as before. *)
Theorem Set_new_key_within_capacity f k v :
  reachable CalcLen f → cache f !! k = None →
  (maxBytes f ≤ 0 ∨ add (usedBytes f) (CalcLen v) ≤ maxBytes f)%Z →
  let f' := (Set_ CalcLen k v f).1 in
  (Set_ CalcLen k v f).2 = [] ∧
  entries f' = entries f ++ [Some (mkEntry k v)] ∧
  (Len f').1 = ((Len f).1 + 1)%Z ∧
  usedBytes f' = add (usedBytes f) (CalcLen v) ∧
  (Get k f').1 = v ∧
  (∀ k', k' ≠ k → (Get k' f').1 = (Get k' f).1).
Proof.
  intros Hwf%reachable_wf Hk Hc.
  rewrite (Set_new_within f k v Hk Hc). simpl.
  split; [done|]. split; [by apply entries_pushed|]. split.
  { rewrite length_app. simpl. lia. }
  split; [done|]. split; [apply Get_pushed|].
  intros k' Hne. by apply Get_pushed_ne.
Qed.

(** [Set] of a key that the store does not hold, when the store is not
    empty and the new total exceeds [maxBytes > 0]: the oldest entry, and
    it alone, is evicted (with one callback call when there is a callback),
    the new entry is the newest, so [Len] is as before, and [Get] of the
    new key returns the value. *)
Theorem Set_new_key_over_capacity f k v e l :
  reachable CalcLen f → cache f !! k = None → ll f = e :: l →
  (maxBytes f > 0)%Z → (add (usedBytes f) (CalcLen v) > maxBytes f)%Z →
  ∃ ko vo, heap f !! e = Some (mkEntry ko vo) ∧
    let f' := (Set_ CalcLen k v f).1 in
    ll f' = l ++ [length (heap f)] ∧
    entries f' = tail (entries f) ++ [Some (mkEntry k v)] ∧
    (Len f').1 = (Len f).1 ∧
    cache f' !! ko = None ∧ (Get k f').1 = v ∧
    usedBytes f' = sub (add (usedBytes f) (CalcLen v)) (CalcLen vo) ∧
    (Set_ CalcLen k v f).2 =
      match onEvicted f with
      | Some cb => [mkCall cb ko vo f']
      | None => []
      end.
Proof.
  intros Hwf%reachable_wf Hk Hl H1 H2.
  assert (e ∈ ll f) as Hin by (rewrite Hl; by left).
  destruct (wf_heap Hwf e Hin) as [[ko vo] He]. exists ko, vo.
  split; [done|].
  rewrite (Set_new_over f k v Hk H1 H2).
  assert (DelOldest CalcLen (pushed CalcLen k v f) =
          removeElement CalcLen (Some e) (pushed CalcLen k v f)) as ->
    by (unfold DelOldest; cbn [ll pushed]; by rewrite Hl).
  assert (heap (pushed CalcLen k v f) !! e = Some (mkEntry ko vo)) as He'.
  { simpl. by rewrite lookup_app_l by (by apply lookup_lt_Some in He). }
  assert (ko ≠ k) as Hne.
  { intros ->. pose proof (wf_linked_key f e _ Hwf Hin He) as Hc.
    simpl in Hc. congruence. }
  assert ((Get k (removeElement CalcLen (Some e) (pushed CalcLen k v f)).1).1
          = v) as Hget.
  { rewrite (Get_removed_ne _ e _ k He') by (simpl; congruence).
    apply Get_pushed. }
  assert (ll (pushed CalcLen k v f) = e :: (l ++ [length (heap f)])) as Hl'
    by (simpl; by rewrite Hl).
  destruct (entries_removed_head _ e _ _ Hl' He') as [Hll Hen].
  split; [done|]. split.
  { rewrite Hen, (entries_pushed f k v Hwf). unfold entries.
    by rewrite Hl. }
  split.
  { unfold Len. cbn [fst]. rewrite Hll, Hl, length_app. simpl. f_equal. lia. }
  split.
  { rewrite (removeElement_store CalcLen _ e _ He'). apply lookup_delete_eq. }
  split; [done|]. split.
  { by rewrite (removeElement_store CalcLen _ e _ He'). }
  by rewrite (removeElement_calls CalcLen _ e _ He').
Qed.

(** Insert, then look up: [Get] of a key right after [Set] of that key
    returns the value that was set, whether the key was held or not, unless
    the store was empty and the value alone is over a capacity
    [maxBytes > 0]. *)
Theorem Get_after_Set f k v :
  reachable CalcLen f →
  ll f ≠ [] ∨ (maxBytes f ≤ 0 ∨ add (usedBytes f) (CalcLen v) ≤ maxBytes f)%Z →
  (Get k (Set_ CalcLen k v f).1).1 = v.
Proof.
  intros Hwf%reachable_wf Hc.
  destruct (cache f !! k) as [e|] eqn:Hk.
  - assert (e ∈ ll f) as Hin by (by apply (wf_index Hwf) in Hk as [? _]).
    destruct (wf_heap Hwf e Hin) as [en He].
    rewrite (Set_known CalcLen f k v e en Hk He). simpl.
    by apply Get_updated.
  - destruct (decide (maxBytes f ≤ 0 ∨
                      add (usedBytes f) (CalcLen v) ≤ maxBytes f)%Z) as [Hw|Ho].
    + rewrite (Set_new_within f k v Hk Hw). apply Get_pushed.
    + destruct Hc as [Hl|Hw]; [|done].
      rewrite (Set_new_over f k v Hk) by lia.
      destruct (ll f) as [|e l] eqn:Hll; [done|].
      assert (e ∈ ll f) as Hin by (rewrite Hll; by left).
      destruct (wf_heap Hwf e Hin) as [en He].
      assert (DelOldest CalcLen (pushed CalcLen k v f) =
              removeElement CalcLen (Some e) (pushed CalcLen k v f)) as ->
        by (unfold DelOldest; cbn [ll pushed]; by rewrite Hll).
      assert (heap (pushed CalcLen k v f) !! e = Some en) as He'.
      { simpl. by rewrite lookup_app_l by (by apply lookup_lt_Some in He). }
      rewrite (Get_removed_ne _ e en k He'); [apply Get_pushed|].
      intros ->. pose proof (wf_linked_key f e _ Hwf Hin He). congruence.
Qed.

(** [Set] of a key disturbs no other key, the oldest one apart: [Get] of
    any other key returns what it returned before, unless that key is the
    one of the oldest entry and [Set], having linked a new key on a store
    with [maxBytes > 0], evicted it; [Get] then returns [nil]. *)
Theorem Set_disturbs_only_the_oldest f k v k' :
  reachable CalcLen f → k' ≠ k →
  let f' := (Set_ CalcLen k v f).1 in
  (Get k' f').1 = (Get k' f).1 ∨
  (cache f !! k = None ∧ (maxBytes f > 0)%Z ∧
   ∃ e l vo, ll f = e :: l ∧ heap f !! e = Some (mkEntry k' vo) ∧
     (Get k' f').1 = GoNil).
Proof.
  intros Hwf%reachable_wf Hne.
  destruct (cache f !! k) as [e|] eqn:Hk.
  - left. assert (e ∈ ll f) as Hin by (by apply (wf_index Hwf) in Hk as [? _]).
    destruct (wf_heap Hwf e Hin) as [en He].
    rewrite (Set_known CalcLen f k v e en Hk He). simpl.
    by apply (Get_updated_ne f k).
  - destruct (decide (maxBytes f ≤ 0 ∨
                      add (usedBytes f) (CalcLen v) ≤ maxBytes f)%Z) as [Hw|Ho].
    { left. rewrite (Set_new_within f k v Hk Hw). by apply Get_pushed_ne. }
    rewrite (Set_new_over f k v Hk) by lia.
    destruct (ll f) as [|e l] eqn:Hll.
    + left.
      assert (DelOldest CalcLen (pushed CalcLen k v f) =
              removeElement CalcLen (Some (length (heap f)))
                (pushed CalcLen k v f)) as ->
        by (unfold DelOldest; cbn [ll pushed]; by rewrite Hll).
      assert (heap (pushed CalcLen k v f) !! length (heap f)
              = Some (mkEntry k v)) as He'
        by (simpl; by apply list_lookup_middle).
      rewrite (Get_removed_ne _ _ _ k' He') by done.
      by apply Get_pushed_ne.
    + assert (e ∈ ll f) as Hin by (rewrite Hll; by left).
      destruct (wf_heap Hwf e Hin) as [[ko vo] He].
      assert (DelOldest CalcLen (pushed CalcLen k v f) =
              removeElement CalcLen (Some e) (pushed CalcLen k v f)) as ->
        by (unfold DelOldest; cbn [ll pushed]; by rewrite Hll).
      assert (heap (pushed CalcLen k v f) !! e = Some (mkEntry ko vo)) as He'.
      { simpl. by rewrite lookup_app_l by (by apply lookup_lt_Some in He). }
      destruct (decide (k' = ko)) as [->|Hko].
      * right. split; [done|]. split; [lia|]. exists e, l, vo.
        split; [done|]. split; [done|].
        apply (Get_removed _ e (mkEntry ko vo) He').
      * left. rewrite (Get_removed_ne _ _ _ k' He') by done.
        by apply Get_pushed_ne.
Qed.

Lemma removeElement_usedBytes f e en :
  heap f !! e = Some en →
  usedBytes (removeElement CalcLen (Some e) f).1
  = sub (usedBytes f) (CalcLen (value en)) ∧
  ll (removeElement CalcLen (Some e) f).1 = Remove e (ll f) ∧
  cache (removeElement CalcLen (Some e) f).1 = delete (key en) (cache f) ∧
  heap (removeElement CalcLen (Some e) f).1 = heap f.
Proof. intros He. by rewrite (removeElement_store CalcLen f e en He). Qed.

(** [Del] of a key that the store holds: the key is no longer held and
    [Get] of it returns [nil], its element is unlinked with the others left
    in their order, [Len] is one less, [usedBytes] is less by the size of
    the value, [Get] of every other key is as before, and the callback, when
    there is one, is called once with the key and its value. *)
Theorem Del_present_key f k e :
  reachable CalcLen f → cache f !! k = Some e →
  ∃ vo, heap f !! e = Some (mkEntry k vo) ∧
    let f' := (Del CalcLen k f).1 in
    cache f' !! k = None ∧ (Get k f').1 = GoNil ∧
    ll f' = Remove e (ll f) ∧
    (Len f').1 = ((Len f).1 - 1)%Z ∧
    usedBytes f' = sub (usedBytes f) (CalcLen vo) ∧
    (∀ k', k' ≠ k → (Get k' f').1 = (Get k' f).1) ∧
    (Del CalcLen k f).2 =
      match onEvicted f with
      | Some cb => [mkCall cb k vo f']
      | None => []
      end.
Proof.
  intros Hr Hk. destruct (reachable_known CalcLen f k e Hr Hk) as (Hin & vo & He).
  exists vo. split; [done|]. unfold Del. rewrite Hk.
  destruct (removeElement_usedBytes f e _ He) as (Hu & Hl & Hc & _).
  split; [rewrite Hc; apply lookup_delete_eq|].
  split; [apply (Get_removed f e _ He)|].
  split; [done|]. split.
  { unfold Len. cbn [fst]. rewrite Hl.
    pose proof (Remove_length e (ll f) Hin). lia. }
  split; [done|]. split.
  { intros k' Hne. by apply (Get_removed_ne f e _ k' He). }
  by rewrite (removeElement_calls CalcLen f e _ He).
Qed.

(** [DelOldest] on a store that holds entries removes the oldest one and
    only it: the other entries stay, in their order, the key of the oldest
    is no longer held, [usedBytes] is less by the size of its value, [Get]
    of every other key is as before, and the callback, when there is one,
    is called once with the key and value of the oldest entry. *)
Theorem DelOldest_removes_the_oldest f e l :
  reachable CalcLen f → ll f = e :: l →
  ∃ ko vo, heap f !! e = Some (mkEntry ko vo) ∧
    let f' := (DelOldest CalcLen f).1 in
    ll f' = l ∧ entries f' = tail (entries f) ∧
    cache f' !! ko = None ∧
    usedBytes f' = sub (usedBytes f) (CalcLen vo) ∧
    (∀ k', k' ≠ ko → (Get k' f').1 = (Get k' f).1) ∧
    (DelOldest CalcLen f).2 =
      match onEvicted f with
      | Some cb => [mkCall cb ko vo f']
      | None => []
      end.
Proof.
  intros Hwf%reachable_wf Hl.
  assert (e ∈ ll f) as Hin by (rewrite Hl; by left).
  destruct (wf_heap Hwf e Hin) as [[ko vo] He]. exists ko, vo.
  split; [done|]. unfold DelOldest, Front. rewrite Hl. cbn [head].
  destruct (entries_removed_head f e l _ Hl He) as [Hll Hen].
  destruct (removeElement_usedBytes f e _ He) as (Hu & _ & Hc & _).
  split; [done|]. split; [done|].
  split; [rewrite Hc; apply lookup_delete_eq|].
  split; [done|]. split.
  { intros k' Hne. by apply (Get_removed_ne f e _ k' He). }
  by rewrite (removeElement_calls CalcLen f e _ He).
Qed.

Lemma wrap_usedBytes f : wf CalcLen f → wrap (usedBytes f) = usedBytes f.
Proof. intros Hwf. rewrite (wf_used Hwf). apply wrap_in_range, wrap_range. Qed.

(** Insert, then delete: [Set] of a key that the store does not hold,
    within capacity, followed by [Del] of that key, gives back the store as
    it was: the same eviction order, index and [usedBytes], the same
    entries and the same result of [Get] for every key. *)
Theorem Del_after_Set_new_key f k v :
  reachable CalcLen f → cache f !! k = None →
  (maxBytes f ≤ 0 ∨ add (usedBytes f) (CalcLen v) ≤ maxBytes f)%Z →
  let g := (Del CalcLen k (Set_ CalcLen k v f).1).1 in
  ll g = ll f ∧ cache g = cache f ∧ usedBytes g = usedBytes f ∧
  entries g = entries f ∧ (∀ k', (Get k' g).1 = (Get k' f).1).
Proof.
  intros Hwf%reachable_wf Hk Hc.
  rewrite (Set_new_within f k v Hk Hc). cbn [fst].
  assert (cache (pushed CalcLen k v f) !! k = Some (length (heap f))) as Hk'
    by (simpl; apply lookup_insert_eq).
  assert (heap (pushed CalcLen k v f) !! length (heap f)
          = Some (mkEntry k v)) as He
    by (simpl; by apply list_lookup_middle).
  unfold Del. rewrite Hk'.
  destruct (removeElement_usedBytes _ _ _ He) as (Hu & Hl & Hca & Hh).
  assert (length (heap f) ∉ ll f) as Hfresh.
  { intros Hin%(wf_lt CalcLen f _ Hwf). lia. }
  assert (∀ p, p ∈ ll f →
            (heap f ++ [mkEntry k v]) !! p = heap f !! p) as Hsame.
  { intros p Hp. by rewrite lookup_app_l by (by apply (wf_lt CalcLen f p Hwf)). }
  assert (cache (removeElement CalcLen (Some (length (heap f)))
                   (pushed CalcLen k v f)).1 = cache f) as Hca'.
  { rewrite Hca. simpl. by rewrite delete_insert_eq, delete_id. }
  split; [rewrite Hl; simpl; by apply Remove_app_last|].
  split; [done|]. split.
  { rewrite Hu. simpl. unfold sub, add. rewrite wrap_sub_l.
    replace (usedBytes f + CalcLen v - CalcLen v)%Z with (usedBytes f) by lia.
    by apply wrap_usedBytes. }
  split.
  { unfold entries. rewrite Hl, Hh. simpl.
    rewrite Remove_app_last by done. by apply fmap_ext_elem. }
  intros k'. rewrite !Get_fst, Hca', Hh. simpl.
  destruct (cache f !! k') as [e'|] eqn:Hc'; [|done].
  apply (wf_index Hwf) in Hc' as [Hin _]. by rewrite Hsame.
Qed.

(** *** Runs *)

Lemma run_cons (o : op V) (os : list (op V)) f :
  (run CalcLen (o :: os) f).1 = (run CalcLen os (step CalcLen o f).1).1 ∧
  (run CalcLen (o :: os) f).2
  = (step CalcLen o f).2 ++ (run CalcLen os (step CalcLen o f).1).2.
Proof.
  simpl. destruct (step CalcLen o f) as [f1 c1]. simpl.
  by destruct (run CalcLen os f1) as [f2 c2].
Qed.

Lemma removeElement_config f (o : option ptr) :
  maxBytes (removeElement CalcLen o f).1 = maxBytes f ∧
  onEvicted (removeElement CalcLen o f).1 = onEvicted f ∧
  (onEvicted f = None → (removeElement CalcLen o f).2 = []).
Proof.
  unfold removeElement. destruct o as [e|]; [|done]. simpl.
  destruct (heap f !! e); [|done].
  unfold set_cache, set_usedBytes, set_ll. simpl.
  destruct (onEvicted f) eqn:Hcb; simpl; by rewrite ?Hcb.
Qed.

Lemma step_config f (o : op V) :
  maxBytes (step CalcLen o f).1 = maxBytes f ∧
  onEvicted (step CalcLen o f).1 = onEvicted f ∧
  (onEvicted f = None → (step CalcLen o f).2 = []).
Proof.
  destruct o as [k v|k|k| |]; simpl.
  - unfold Set_. destruct (cache f !! k) as [e|].
    + simpl. by destruct (heap f !! e).
    + simpl. destruct (_ && _); [|done].
      apply (removeElement_config
               (set_usedBytes (add (usedBytes f) (CalcLen v))
                  (set_cache (<[k:=length (heap f)]> (cache f))
                     (set_ll (PushBack (length (heap f)) (ll f))
                        (set_heap (heap f ++ [mkEntry k v]) f))))).
  - unfold Get. by repeat case_match.
  - unfold Del. destruct (cache f !! k); [apply removeElement_config|done].
  - apply removeElement_config.
  - done.
Qed.

Lemma run_config (os : list (op V)) f :
  maxBytes (run CalcLen os f).1 = maxBytes f ∧
  onEvicted (run CalcLen os f).1 = onEvicted f ∧
  (onEvicted f = None → (run CalcLen os f).2 = []).
Proof.
  revert f. induction os as [|o os IH]; intros f; [done|].
  destruct (run_cons o os f) as [-> ->].
  destruct (step_config f o) as (Hm & Hc & Hn).
  destruct (IH (step CalcLen o f).1) as (Hm' & Hc' & Hn').
  rewrite Hm', Hc', Hm, Hc. split; [done|]. split; [done|].
  intros Hnone. rewrite (Hn Hnone), Hn'; [done|]. by rewrite Hc.
Qed.

(** The capacity and the callback of a store are those that [New] was
    given, whatever is done with the store; and a store without a callback
    ([onEvicted] is [nil]) makes no call, whatever it removes. *)
Theorem configuration_is_constant (os : list (op V)) f :
  maxBytes (run CalcLen os f).1 = maxBytes f ∧
  onEvicted (run CalcLen os f).1 = onEvicted f ∧
  (onEvicted f = None → (run CalcLen os f).2 = []).
Proof. apply run_config. Qed.

Lemma step_unlimited f (o : op V) :
  wf CalcLen f → (maxBytes f ≤ 0)%Z → is_removal o = false →
  (step CalcLen o f).2 = [] ∧
  (length (ll f) ≤ length (ll (step CalcLen o f).1))%nat ∧
  (∀ k, is_Some (cache f !! k) → is_Some (cache (step CalcLen o f).1 !! k)) ∧
  (∀ k v, o = OpSet k v → is_Some (cache (step CalcLen o f).1 !! k)).
Proof.
  intros Hwf Hm Hr. destruct o as [k v|k|k| |]; try done; simpl.
  - destruct (cache f !! k) as [e|] eqn:Hk.
    + assert (e ∈ ll f) as Hin by (by apply (wf_index Hwf) in Hk as [? _]).
      destruct (wf_heap Hwf e Hin) as [en He].
      rewrite (Set_known CalcLen f k v e en Hk He). simpl.
      split; [done|]. split; [by rewrite (MoveToBack_perm e (ll f))|].
      split; [done|]. intros k0 v0 [= <- <-]. by rewrite Hk.
    + rewrite (Set_new_within f k v Hk) by (by left). simpl.
      split; [done|]. split; [rewrite length_app; lia|]. split.
      * intros k0 Hk0. rewrite lookup_insert_is_Some.
        destruct (decide (k = k0)); [by left|by right].
      * intros k0 v0 [= <- <-]. rewrite lookup_insert_eq. eauto.
  - assert ((Get k f).2 = f) as -> by (unfold Get; by repeat case_match).
    split; [done|]. split; [done|]. split; [done|]. by intros ??.
Qed.

Lemma run_unlimited (os : list (op V)) f :
  wf CalcLen f → (maxBytes f ≤ 0)%Z →
  Forall (λ o, is_removal o = false) os →
  (run CalcLen os f).2 = [] ∧
  (length (ll f) ≤ length (ll (run CalcLen os f).1))%nat ∧
  (∀ k, is_Some (cache f !! k) → is_Some (cache (run CalcLen os f).1 !! k)) ∧
  (∀ k v, (k, v) ∈ set_args os → is_Some (cache (run CalcLen os f).1 !! k)).
Proof.
  revert f. induction os as [|o os IH]; intros f Hwf Hm Hos.
  { simpl. split; [done|]. split; [done|]. split; [done|].
    by intros k v ?%elem_of_nil. }
  apply Forall_cons in Hos as [Ho Hos].
  destruct (run_cons o os f) as [-> ->].
  destruct (step_unlimited f o Hwf Hm Ho) as (Hc & Hlen & Hkeep & Hset).
  destruct (step_config f o) as (Hmax & _).
  destruct (IH (step CalcLen o f).1) as (Hc' & Hlen' & Hkeep' & Hset');
    [by apply step_wf | by rewrite Hmax | done |].
  rewrite Hc, Hc'. split; [done|]. split; [lia|]. split; [by auto|].
  intros k v Hin. unfold set_args in Hin. simpl in Hin.
  destruct o as [k0 v0|k0|k0| |]; simpl in Hin; try (by apply (Hset' k v)).
  apply elem_of_cons in Hin as [[= -> ->]|Hin]; [|by apply (Hset' k v)].
  apply Hkeep'. by apply (Hset k0 v0).
Qed.

(** Without a capacity limit ([maxBytes] is 0, or negative) nothing is
    ever evicted: whatever the volume, a run of [Set], [Get] and [Len]
    calls makes no callback call, never lowers [Len], and leaves in the
    store every key that was there and every key that was set. *)
Theorem no_limit_never_evicts (os : list (op V)) f :
  reachable CalcLen f → (maxBytes f ≤ 0)%Z →
  Forall (λ o, is_removal o = false) os →
  (run CalcLen os f).2 = [] ∧
  ((Len f).1 ≤ (Len (run CalcLen os f).1).1)%Z ∧
  (∀ k, is_Some (cache f !! k) → is_Some (cache (run CalcLen os f).1 !! k)) ∧
  (∀ k v, (k, v) ∈ set_args os → is_Some (cache (run CalcLen os f).1 !! k)).
Proof.
  intros Hwf%reachable_wf Hm Hos.
  destruct (run_unlimited os f Hwf Hm Hos) as (Hc & Hlen & Hkeep & Hset).
  split; [done|]. split; [unfold Len; simpl; lia|]. done.
Qed.

Lemma wf_no_entry f :
  wf CalcLen f → ll f = [] → cache f = ∅ ∧ usedBytes f = 0%Z.
Proof.
  intros Hwf Hl. split.
  - apply map_eq. intros k. rewrite lookup_empty.
    destruct (cache f !! k) as [e|] eqn:Hk; [|done].
    apply (wf_index Hwf) in Hk as [Hin _]. rewrite Hl in Hin.
    by apply elem_of_nil in Hin.
  - by rewrite (wf_used Hwf), Hl.
Qed.

Lemma drain (n : nat) f :
  wf CalcLen f → length (ll f) = n →
  ll (run CalcLen (replicate n OpDelOldest) f).1 = [] ∧
  wf CalcLen (run CalcLen (replicate n OpDelOldest) f).1 ∧
  (λ c, Some (call_entry c)) <$> (run CalcLen (replicate n OpDelOldest) f).2
  = match onEvicted f with Some _ => entries f | None => [] end.
Proof.
  revert f. induction n as [|n IH]; intros f Hwf Hn.
  { simpl. destruct (ll f) eqn:Hl; [|done]. unfold entries. rewrite Hl.
    split; [done|]. split; [done|]. by destruct (onEvicted f). }
  destruct (ll f) as [|e l] eqn:Hl; [done|]. simpl in Hn.
  assert (e ∈ ll f) as Hin by (rewrite Hl; by left).
  destruct (wf_heap Hwf e Hin) as [en He].
  rewrite replicate_S.
  destruct (run_cons OpDelOldest (replicate n OpDelOldest) f) as [-> ->].
  assert (step CalcLen OpDelOldest f = removeElement CalcLen (Some e) f) as ->
    by (unfold step, DelOldest; by rewrite Hl).
  destruct (entries_removed_head f e l en Hl He) as [Hll Hen].
  destruct (removeElement_config f (Some e)) as (_ & Hcb & _).
  destruct (IH (removeElement CalcLen (Some e) f).1) as (H1 & H2 & H3).
  { by apply removeElement_wf. }
  { rewrite Hll. lia. }
  split; [done|]. split; [done|].
  rewrite fmap_app, H3, Hcb, Hen, (removeElement_calls CalcLen f e en He).
  destruct (onEvicted f); [|done]. simpl.
  unfold entries. rewrite Hl. simpl. rewrite He. by destruct en.
Qed.

(** [DelOldest] called [Len] times empties the store: no entry and no key
    is left and [usedBytes] is 0; and the callback, when there is one, was
    called once for each entry, oldest first, with its key and value. *)
Theorem DelOldest_Len_times_empties f :
  reachable CalcLen f →
  let r := run CalcLen (replicate (length (ll f)) OpDelOldest) f in
  (Len r.1).1 = 0%Z ∧ cache r.1 = ∅ ∧ usedBytes r.1 = 0%Z ∧
  (λ c, Some (call_entry c)) <$> r.2
  = match onEvicted f with Some _ => entries f | None => [] end.
Proof.
  intros Hwf%reachable_wf.
  destruct (drain (length (ll f)) f Hwf eq_refl) as (Hl & Hwf' & Hcs).
  destruct (wf_no_entry _ Hwf' Hl) as [Hc Hu].
  simpl. unfold Len. simpl. by rewrite Hl.
Qed.

Lemma sets_run (kvs : list (string * iface V)) f :
  wf CalcLen f → (maxBytes f ≤ 0)%Z → NoDup kvs.*1 →
  (∀ k, k ∈ kvs.*1 → cache f !! k = None) →
  (run CalcLen ((λ kv, OpSet kv.1 kv.2) <$> kvs) f).2 = [] ∧
  wf CalcLen (run CalcLen ((λ kv, OpSet kv.1 kv.2) <$> kvs) f).1 ∧
  entries (run CalcLen ((λ kv, OpSet kv.1 kv.2) <$> kvs) f).1
  = entries f ++ ((λ kv, Some (mkEntry kv.1 kv.2)) <$> kvs).
Proof.
  revert f. induction kvs as [|[k v] kvs IH]; intros f Hwf Hm Hnd Hnew.
  { simpl. by rewrite app_nil_r. }
  rewrite fmap_cons. cbn [fst snd].
  destruct (run_cons (OpSet k v) ((λ kv, OpSet kv.1 kv.2) <$> kvs) f)
    as [-> ->].
  rewrite fmap_cons in Hnd. apply NoDup_cons in Hnd as [Hk Hnd].
  assert (cache f !! k = None) as Hc by (apply Hnew; rewrite fmap_cons; by left).
  assert (step CalcLen (OpSet k v) f = (pushed CalcLen k v f, [])) as ->
    by (simpl; apply Set_new_within; [done| by left]).
  cbn [fst snd].
  destruct (IH (pushed CalcLen k v f)) as (H1 & H2 & H3).
  - by apply pushed_wf.
  - done.
  - done.
  - intros k' Hk'. simpl. rewrite lookup_insert_ne.
    + apply Hnew. rewrite fmap_cons. by right.
    + by intros ->.
  - split; [done|]. split; [done|].
    rewrite H3, (entries_pushed f k v Hwf), fmap_cons, <- app_assoc. done.
Qed.

(** Without a capacity limit, [Set] of keys that the store does not hold,
    one after the other, each key once, calls no callback and appends the
    entries to the eviction order in the order of the calls. *)
Theorem Set_new_keys_in_order (kvs : list (string * iface V)) f :
  reachable CalcLen f → (maxBytes f ≤ 0)%Z → NoDup kvs.*1 →
  (∀ k, k ∈ kvs.*1 → cache f !! k = None) →
  let r := run CalcLen ((λ kv, OpSet kv.1 kv.2) <$> kvs) f in
  r.2 = [] ∧
  entries r.1 = entries f ++ ((λ kv, Some (mkEntry kv.1 kv.2)) <$> kvs).
Proof.
  intros Hwf%reachable_wf Hm Hnd Hnew.
  by destruct (sets_run kvs f Hwf Hm Hnd Hnew) as (H1 & _ & H3).
Qed.

Lemma call_args_of_entries (cs : list (call V CB))
    (kvs : list (string * iface V)) :
  (λ c, Some (call_entry c)) <$> cs
  = (λ kv, Some (mkEntry kv.1 kv.2)) <$> kvs →
  (λ c, (arg_key c, arg_value c)) <$> cs = kvs.
Proof.
  revert kvs. induction cs as [|c cs IH]; intros [|[k v] kvs] H; try done.
  rewrite !fmap_cons in H. injection H as H1 H2 H3.
  rewrite fmap_cons, (IH kvs H3). simpl in *. by subst.
Qed.

(** First in, first out: on a new store without a capacity limit and with
    a callback, after [Set] of distinct keys one after the other,
    [DelOldest] called as many times evicts the entries in the order in
    which they were set: the callback receives the keys and values in
    that order. *)
Theorem first_in_first_out (m : Z) (cb : CB) (kvs : list (string * iface V)) :
  (m ≤ 0)%Z → NoDup kvs.*1 →
  let f := (run CalcLen ((λ kv, OpSet kv.1 kv.2) <$> kvs)
              (New CB m (Some cb))).1 in
  let r := run CalcLen (replicate (length kvs) OpDelOldest) f in
  (λ c, (arg_key c, arg_value c)) <$> r.2 = kvs ∧ (Len r.1).1 = 0%Z.
Proof.
  intros Hm Hnd f r.
  destruct (sets_run kvs (New CB m (Some cb)) (New_wf CalcLen m (Some cb)) Hm Hnd)
    as (_ & Hwf & Hen); [done|]. fold f in Hwf, Hen. simpl in Hen.
  assert (length (ll f) = length kvs) as Hlen.
  { apply (f_equal length) in Hen. unfold entries in Hen.
    by rewrite !length_fmap in Hen. }
  destruct (drain (length kvs) f Hwf Hlen) as (Hl & _ & Hcs). fold r in Hl, Hcs.
  destruct (run_config ((λ kv, OpSet kv.1 kv.2) <$> kvs) (New CB m (Some cb)))
    as (_ & Hcb & _). fold f in Hcb. simpl in Hcb. rewrite Hcb, Hen in Hcs.
  split; [by apply call_args_of_entries|]. unfold Len. simpl. by rewrite Hl.
Qed.

(** *** What [Get] can return *)

Lemma step_entries_set (A : list (string * iface V)) f (o : op V) :
  wf CalcLen f →
  (∀ p en, p ∈ ll f → heap f !! p = Some en → (key en, value en) ∈ A) →
  (∀ k v, o = OpSet k v → (k, v) ∈ A) →
  ∀ p en, p ∈ ll (step CalcLen o f).1 →
    heap (step CalcLen o f).1 !! p = Some en → (key en, value en) ∈ A.
Proof.
  intros Hwf Hinv Ho.
  assert (∀ (g : fifo V CB) (x : option ptr),
    wf CalcLen g →
    (∀ p en, p ∈ ll g → heap g !! p = Some en → (key en, value en) ∈ A) →
    ∀ p en, p ∈ ll (removeElement CalcLen x g).1 →
      heap (removeElement CalcLen x g).1 !! p = Some en →
      (key en, value en) ∈ A) as Hrem.
  { intros g [e|] Hg Hgi p en; [|by apply Hgi].
    rewrite removeElement_heap. unfold removeElement. simpl.
    destruct (heap g !! e) as [en'|]; simpl.
    - assert (ll (match onEvicted g with
                  | Some cb => _
                  | None => _
                  end).1 = Remove e (ll g)) as -> by (by destruct (onEvicted g)).
      intros [Hp _]%elem_of_Remove; [|apply (wf_nodup Hg)]. by apply Hgi.
    - intros [Hp _]%elem_of_Remove; [|apply (wf_nodup Hg)]. by apply Hgi. }
  assert (∀ k v, (k, v) ∈ A →
    ∀ p en, p ∈ ll (pushed CalcLen k v f) →
      heap (pushed CalcLen k v f) !! p = Some en → (key en, value en) ∈ A)
    as Hpush.
  { intros k v Hkv p en. simpl.
    intros [Hp| ->%list_elem_of_singleton]%elem_of_app.
    - rewrite lookup_app_l by (by apply (wf_lt CalcLen f p Hwf)). by apply Hinv.
    - rewrite list_lookup_middle by done. by intros [= <-]. }
  destruct o as [k v|k|k| |]; simpl.
  - destruct (cache f !! k) as [e|] eqn:Hk.
    + assert (e ∈ ll f) as Hin by (by apply (wf_index Hwf) in Hk as [? _]).
      destruct (wf_heap Hwf e Hin) as [en0 He].
      rewrite (Set_known CalcLen f k v e en0 Hk He). simpl.
      intros p en. rewrite MoveToBack_perm. intros Hp.
      destruct (decide (p = e)) as [->|Hne].
      * rewrite list_lookup_insert_eq by (by apply lookup_lt_Some in He).
        intros [= <-]. simpl.
        apply (wf_index Hwf) in Hk as (_ & en1 & He1 & <-).
        assert (en1 = en0) as -> by congruence. by apply (Ho (key en0) v).
      * rewrite list_lookup_insert_ne by done. by apply Hinv.
    + rewrite (Set_new CalcLen f k v Hk).
      destruct (_ && _).
      * apply Hrem; [by apply pushed_wf|]. apply Hpush. by apply Ho.
      * apply Hpush. by apply Ho.
  - assert ((Get k f).2 = f) as -> by (unfold Get; by repeat case_match).
    done.
  - unfold Del. destruct (cache f !! k); [by apply Hrem|done].
  - by apply Hrem.
  - done.
Qed.

Lemma run_entries_set (A : list (string * iface V)) (os : list (op V)) f :
  wf CalcLen f →
  (∀ p en, p ∈ ll f → heap f !! p = Some en → (key en, value en) ∈ A) →
  (∀ kv, kv ∈ set_args os → kv ∈ A) →
  ∀ p en, p ∈ ll (run CalcLen os f).1 →
    heap (run CalcLen os f).1 !! p = Some en → (key en, value en) ∈ A.
Proof.
  revert f. induction os as [|o os IH]; intros f Hwf Hinv HA; [done|].
  destruct (run_cons o os f) as [-> _].
  apply IH.
  - by apply step_wf.
  - apply step_entries_set; [done..|].
    intros k v ->. apply HA. unfold set_args. simpl. by left.
  - intros kv Hkv. apply HA. unfold set_args in *. simpl.
    destruct o; simpl; auto. by right.
Qed.

(** [Get] returns only what was set: on a store that [New] made, when the
    index holds the key, the result of [Get] is a value that one of the
    [Set] calls made so far was given for that key. *)
Theorem Get_returns_a_value_that_was_Set (m : Z) (cb : option CB)
    (os : list (op V)) (k : string) :
  let f := (run CalcLen os (New CB m cb)).1 in
  is_Some (cache f !! k) → (k, (Get k f).1) ∈ set_args os.
Proof.
  intros f [e Hk].
  assert (wf CalcLen f) as Hwf by (apply run_wf, New_wf).
  pose proof Hk as Hk'.
  apply (wf_index Hwf) in Hk' as (Hin & en & He & <-).
  rewrite Get_fst, Hk, He.
  apply (run_entries_set (set_args os) os (New CB m cb)
           (New_wf CalcLen m cb)) with (p := e); [|done|done|done].
  by intros p en' ?%elem_of_nil.
Qed.

End Usage.

(** ** Runs of a concrete store *)

Section Runs.

Local Open Scope Z_scope.

(** C1, on the code. With [maxBytes = 10], after [Set] of three new keys
    of sizes 5, 5 and 9 the store holds the last two entries and
    [usedBytes] is 14: the new-key path evicts once, not until the bound
    holds.  After [Set] of two new keys of sizes 5 and 5 and then of the
    first key again with a value of size 9, the store holds both entries and
    [usedBytes] is 14: the known-key path returns before the capacity check.
    No entry is larger than [maxBytes] in either run. *)
Theorem C1_usedBytes_exceeds_maxBytes_after_Set :
  let f := (Demo.after [OpSet "a" (GoVal 5); OpSet "b" (GoVal 5);
                        OpSet "c" (GoVal 9)] 10).1 in
  let g := (Demo.after [OpSet "a" (GoVal 5); OpSet "b" (GoVal 5);
                        OpSet "a" (GoVal 9)] 10).1 in
  (maxBytes f = 10 ∧ usedBytes f = 14 ∧
   entries f = [Some (mkEntry "b" (GoVal 5)); Some (mkEntry "c" (GoVal 9))]) ∧
  (maxBytes g = 10 ∧ usedBytes g = 14 ∧
   entries g = [Some (mkEntry "b" (GoVal 5)); Some (mkEntry "a" (GoVal 9))]).
Proof. vm_compute. repeat split. Qed.

Lemma C2_witness :
  let f := (Demo.after [OpSet "a" (GoVal 5); OpSet "b" (GoVal 7);
                        OpDel "a"] 0).1 in
  sumZ (indexed_sizes Demo.size f) = 7 ∧ usedBytes f = 7.
Proof.
  intros f.
  assert (sumZ (indexed_sizes Demo.size f) = 7) as Hs by (vm_compute; reflexivity).
  split; [exact Hs|].
  destruct (C2_usedBytes_is_indexed_sum Demo.size 0 (Some tt)
             [OpSet "a" (GoVal 5); OpSet "b" (GoVal 7); OpDel "a"]) as [_ H].
  change (in_range (sumZ (indexed_sizes Demo.size f)) →
          usedBytes f = sumZ (indexed_sizes Demo.size f)) in H.
  rewrite Hs in H. apply H. unfold in_range, MinInt, MaxInt. lia.
Defined.

(** C3, as stated, fails: on the empty store with [maxBytes = 10], [Set] of
    a new key with a value of size 20 leaves no entry, not that one. *)
Lemma C3_counterexample :
  ¬ (∀ (f : fifo Z Demo.cb) (k : string) (v : iface Z),
       reachable Demo.size f → maxBytes f > 0 → cache f !! k = None →
       Demo.size v > maxBytes f →
       let f' := (Set_ Demo.size k v f).1 in
       entries f' = [Some (mkEntry k v)] ∧ usedBytes f' > maxBytes f').
Proof.
  intros H.
  destruct (H (Demo.fresh 10) "a" (GoVal 20)) as [He _].
  - by exists 10, (Some tt), [].
  - reflexivity.
  - reflexivity.
  - reflexivity.
  - vm_compute in He. discriminate He.
Qed.

Lemma C3_witness :
  let f := Demo.fresh 10 in
  let f' := (Set_ Demo.size "a" (GoVal 20) f).1 in
  (Len f').1 = 0 ∧ cache f' !! "a" = None ∧ (Get "a" f').1 = GoNil ∧
  usedBytes f' = 0 ∧
  (Set_ Demo.size "a" (GoVal 20) f).2 = [mkCall tt "a" (GoVal 20) f'].
Proof.
  apply (C3_oversized_Set_on_empty_store Demo.size (Demo.fresh 10) "a" (GoVal 20)).
  - by exists 10, (Some tt), [].
  - reflexivity.
  - reflexivity.
  - unfold in_range, MinInt, MaxInt. simpl. lia.
  - reflexivity.
Defined.

Lemma C4_witness :
  let f := (Demo.after [OpSet "a" (GoVal 5); OpSet "b" (GoVal 3)] 0).1 in
  let f' := (Set_ Demo.size "a" (GoVal 9) f).1 in
  (Get "a" f').1 = GoVal 9 ∧ usedBytes f' = 12 ∧ ll f' = [1%nat; 0%nat] ∧
  (Len f').1 = (Len f).1.
Proof.
  intros f f'.
  destruct (C4_Set_known_key_in_place Demo.size f "a" (GoVal 9) 0%nat)
    as (old & Hold & _ & _ & _ & Hget & Hused & Hll & Hlen).
  - by exists 0, (Some tt), [OpSet "a" (GoVal 5); OpSet "b" (GoVal 3)].
  - vm_compute. reflexivity.
  - fold f' in Hget, Hused, Hll, Hlen.
    assert (old = GoVal 5) as -> by (vm_compute in Hold; congruence).
    split; [exact Hget|]. split; [exact Hused|]. split; [exact Hll|exact Hlen].
Defined.

Lemma C5_witness :
  let f := (Demo.after [OpSet "a" (GoVal 5); OpSet "b" (GoVal 3)] 10).1 in
  let o := OpSet "c" (GoVal 4) in
  accounted tt f (step Demo.size o f).1 (step Demo.size o f).2 ∧
  (λ c, (arg_key c, arg_value c)) <$> (step Demo.size o f).2
    = [("a", GoVal 5)].
Proof.
  intros f o. split; [|vm_compute; reflexivity].
  apply (C5_onEvicted_once_per_removed_entry Demo.size f tt).
  - by exists 10, (Some tt), [OpSet "a" (GoVal 5); OpSet "b" (GoVal 3)].
  - reflexivity.
Defined.

(** C7, as stated, fails: after [Set] of a key with the value [nil], [Get]
    of that key and [Get] of a key that is not held both return [nil]. *)
Lemma C7_counterexample :
  ¬ (∀ (f : fifo Z Demo.cb) (k k' : string),
       reachable Demo.size f →
       is_Some (cache f !! k) → cache f !! k' = None →
       (Get k f).1 ≠ (Get k' f).1).
Proof.
  intros H.
  apply (H (Demo.after [OpSet "k" GoNil] 0).1 "k" "missing").
  - by exists 0, (Some tt), [OpSet "k" GoNil].
  - exists 0%nat. vm_compute. reflexivity.
  - vm_compute. reflexivity.
  - vm_compute. reflexivity.
Qed.

Lemma C7_witness :
  let f := (Demo.after [OpSet "k" (GoVal 4)] 0).1 in
  (Get "missing" f).1 = GoNil ∧ is_Some (cache f !! "k").
Proof.
  intros f.
  destruct (C7_Get_nil_means_absent_or_nil Demo.size f "missing")
    as (_ & Hnone & _).
  { by exists 0, (Some tt), [OpSet "k" (GoVal 4)]. }
  destruct (C7_Get_nil_means_absent_or_nil Demo.size f "k")
    as (_ & _ & Hsome).
  { by exists 0, (Some tt), [OpSet "k" (GoVal 4)]. }
  split.
  - apply Hnone. vm_compute. reflexivity.
  - apply Hsome. vm_compute. discriminate.
Defined.

Lemma C9_witness :
  let f := (Demo.after [OpSet "a" (GoVal 5)] 0).1 in
  Del Demo.size "b" f = (f, []) ∧
  DelOldest Demo.size (Demo.fresh 10) = (Demo.fresh 10, []).
Proof.
  intros f. split.
  - apply (C9_Del_absent_DelOldest_empty_noop Demo.size f "b").
    vm_compute. reflexivity.
  - apply (C9_Del_absent_DelOldest_empty_noop Demo.size (Demo.fresh 10) "b").
    reflexivity.
Defined.

Lemma C10_witness :
  let f := (Demo.after [OpSet "a" (GoVal 5); OpSet "b" (GoVal 5)] 10).1 in
  let f' := (Set_ Demo.size "a" (GoVal 9) f).1 in
  (Set_ Demo.size "a" (GoVal 9) f).2 = [] ∧ (Len f').1 = (Len f).1 ∧
  usedBytes f' > maxBytes f'.
Proof.
  intros f f'.
  destruct (C10_Set_known_key_evicts_nothing Demo.size f "a" (GoVal 9) 0%nat)
    as (Hcs & _ & _ & Hlen & _).
  - by exists 10, (Some tt), [OpSet "a" (GoVal 5); OpSet "b" (GoVal 5)].
  - vm_compute. reflexivity.
  - split; [exact Hcs|]. split; [exact Hlen|]. vm_compute. reflexivity.
Defined.

Lemma NoDup_a_b : NoDup (["a"; "b"] : list string).
Proof. by apply (bool_decide_unpack _). Qed.

Lemma index_and_sequence_consistent_witness :
  let f := (Demo.after [OpSet "a" (GoVal 5); OpSet "b" (GoVal 3);
                        OpDel "a"] 0).1 in
  NoDup (ll f) ∧ (Len f).1 = Z.of_nat (size (cache f)).
Proof.
  intros f.
  destruct (index_and_sequence_consistent Demo.size f) as (H1 & _ & H3).
  - by exists 0, (Some tt),
      [OpSet "a" (GoVal 5); OpSet "b" (GoVal 3); OpDel "a"].
  - by split.
Defined.

Lemma Set_new_key_within_capacity_witness :
  let f := (Demo.after [OpSet "a" (GoVal 5)] 10).1 in
  let f' := (Set_ Demo.size "b" (GoVal 3) f).1 in
  (Get "b" f').1 = GoVal 3 ∧ (Len f').1 = (Len f).1 + 1.
Proof.
  intros f f'.
  destruct (Set_new_key_within_capacity Demo.size f "b" (GoVal 3))
    as (_ & _ & Hlen & _ & Hget & _).
  - by exists 10, (Some tt), [OpSet "a" (GoVal 5)].
  - vm_compute. reflexivity.
  - right. by vm_compute.
  - by split.
Defined.

Lemma Set_new_key_over_capacity_witness :
  let f := (Demo.after [OpSet "a" (GoVal 5); OpSet "b" (GoVal 5)] 10).1 in
  let f' := (Set_ Demo.size "c" (GoVal 9) f).1 in
  ll f' = [1%nat; 2%nat] ∧ (Len f').1 = (Len f).1.
Proof.
  intros f f'.
  destruct (Set_new_key_over_capacity Demo.size f "c" (GoVal 9) 0%nat [1%nat])
    as (ko & vo & _ & Hll & _ & Hlen & _).
  - by exists 10, (Some tt), [OpSet "a" (GoVal 5); OpSet "b" (GoVal 5)].
  - vm_compute. reflexivity.
  - vm_compute. reflexivity.
  - reflexivity.
  - vm_compute. reflexivity.
  - split; [exact Hll | exact Hlen].
Defined.

Lemma Get_after_Set_witness :
  let f := (Demo.after [OpSet "a" (GoVal 5)] 10).1 in
  (Get "b" (Set_ Demo.size "b" (GoVal 20) f).1).1 = GoVal 20.
Proof.
  intros f. apply (Get_after_Set Demo.size f "b" (GoVal 20)).
  - by exists 10, (Some tt), [OpSet "a" (GoVal 5)].
  - left. vm_compute. discriminate.
Defined.

Lemma Set_disturbs_only_the_oldest_witness :
  let f := (Demo.after [OpSet "a" (GoVal 5); OpSet "b" (GoVal 5)] 10).1 in
  let f' := (Set_ Demo.size "c" (GoVal 9) f).1 in
  (Get "b" f').1 = GoVal 5 ∧ (Get "a" f').1 = GoNil.
Proof.
  intros f f'.
  assert (reachable Demo.size f) as Hr
    by (by exists 10, (Some tt), [OpSet "a" (GoVal 5); OpSet "b" (GoVal 5)]).
  split.
  - destruct (Set_disturbs_only_the_oldest Demo.size f "c" (GoVal 9) "b" Hr)
      as [H|(_ & _ & e & l & vo & Hl & He & _)]; [done|exact H|].
    vm_compute in Hl. injection Hl as <- _. vm_compute in He. discriminate He.
  - destruct (Set_disturbs_only_the_oldest Demo.size f "c" (GoVal 9) "a" Hr)
      as [H|(_ & _ & e & l & vo & _ & _ & H)]; [done| |exact H].
    vm_compute in H. discriminate H.
Defined.

Lemma Del_present_key_witness :
  let f := (Demo.after [OpSet "a" (GoVal 5); OpSet "b" (GoVal 3)] 0).1 in
  let f' := (Del Demo.size "a" f).1 in
  (Get "a" f').1 = GoNil ∧ (Len f').1 = (Len f).1 - 1.
Proof.
  intros f f'.
  destruct (Del_present_key Demo.size f "a" 0%nat)
    as (vo & _ & _ & Hget & _ & Hlen & _).
  - by exists 0, (Some tt), [OpSet "a" (GoVal 5); OpSet "b" (GoVal 3)].
  - vm_compute. reflexivity.
  - by split.
Defined.

Lemma DelOldest_removes_the_oldest_witness :
  let f := (Demo.after [OpSet "a" (GoVal 5); OpSet "b" (GoVal 3)] 0).1 in
  ll (DelOldest Demo.size f).1 = [1%nat].
Proof.
  intros f.
  destruct (DelOldest_removes_the_oldest Demo.size f 0%nat [1%nat])
    as (ko & vo & _ & Hll & _).
  - by exists 0, (Some tt), [OpSet "a" (GoVal 5); OpSet "b" (GoVal 3)].
  - vm_compute. reflexivity.
  - exact Hll.
Defined.

Lemma Del_after_Set_new_key_witness :
  let f := (Demo.after [OpSet "a" (GoVal 5)] 0).1 in
  let g := (Del Demo.size "b" (Set_ Demo.size "b" (GoVal 3) f).1).1 in
  ll g = ll f ∧ cache g = cache f ∧ usedBytes g = usedBytes f.
Proof.
  intros f g.
  destruct (Del_after_Set_new_key Demo.size f "b" (GoVal 3))
    as (H1 & H2 & H3 & _).
  - by exists 0, (Some tt), [OpSet "a" (GoVal 5)].
  - vm_compute. reflexivity.
  - left. by vm_compute.
  - by split.
Defined.

Lemma configuration_is_constant_witness :
  (run Demo.size [OpSet "a" (GoVal 20); OpSet "b" (GoVal 1); OpDel "b"]
     (New Demo.cb 10 None)).2 = [].
Proof.
  apply (configuration_is_constant Demo.size
           [OpSet "a" (GoVal 20); OpSet "b" (GoVal 1); OpDel "b"]
           (New Demo.cb 10 None)).
  reflexivity.
Defined.

Lemma no_limit_never_evicts_witness :
  let os := [OpSet "a" (GoVal 5); OpGet "a"; OpSet "b" (GoVal 7)] in
  (run Demo.size os (Demo.fresh 0)).2 = [] ∧
  is_Some (cache (run Demo.size os (Demo.fresh 0)).1 !! "a").
Proof.
  intros os.
  destruct (no_limit_never_evicts Demo.size os (Demo.fresh 0))
    as (Hc & _ & _ & Hset).
  - by exists 0, (Some tt), [].
  - by vm_compute.
  - by repeat constructor.
  - split; [exact Hc|]. apply (Hset "a" (GoVal 5)). by left.
Defined.

Lemma DelOldest_Len_times_empties_witness :
  let f := (Demo.after [OpSet "a" (GoVal 5); OpSet "b" (GoVal 3)] 0).1 in
  let r := run Demo.size (replicate (length (ll f)) OpDelOldest) f in
  (Len r.1).1 = 0 ∧ usedBytes r.1 = 0.
Proof.
  intros f r.
  destruct (DelOldest_Len_times_empties Demo.size f) as (H1 & _ & H3 & _).
  - by exists 0, (Some tt), [OpSet "a" (GoVal 5); OpSet "b" (GoVal 3)].
  - by split.
Defined.

Lemma Set_new_keys_in_order_witness :
  let kvs := [("a", GoVal 5); ("b", GoVal 3)] in
  let r := run Demo.size ((λ kv, OpSet kv.1 kv.2) <$> kvs) (Demo.fresh 0) in
  r.2 = [] ∧
  entries r.1 = [Some (mkEntry "a" (GoVal 5)); Some (mkEntry "b" (GoVal 3))].
Proof.
  intros kvs r.
  apply (Set_new_keys_in_order Demo.size kvs (Demo.fresh 0)).
  - by exists 0, (Some tt), [].
  - by vm_compute.
  - exact NoDup_a_b.
  - intros k _. apply lookup_empty.
Defined.

Lemma first_in_first_out_witness :
  let kvs := [("a", GoVal 5); ("b", GoVal 3)] in
  let f := (run Demo.size ((λ kv, OpSet kv.1 kv.2) <$> kvs)
              (New Demo.cb 0 (Some tt))).1 in
  let r := run Demo.size (replicate (length kvs) OpDelOldest) f in
  (λ c, (arg_key c, arg_value c)) <$> r.2 = kvs ∧ (Len r.1).1 = 0.
Proof.
  apply (first_in_first_out Demo.size 0 tt [("a", GoVal 5); ("b", GoVal 3)]).
  - by vm_compute.
  - exact NoDup_a_b.
Defined.

Lemma Get_returns_a_value_that_was_Set_witness :
  let os := [OpSet "a" (GoVal 5); OpSet "a" (GoVal 7)] in
  let f := (run Demo.size os (New Demo.cb 0 (Some tt))).1 in
  ("a", (Get "a" f).1) ∈ set_args os.
Proof.
  intros os f.
  apply (Get_returns_a_value_that_was_Set Demo.size 0 (Some tt) os "a").
  exists 0%nat. vm_compute. reflexivity.
Defined.

End Runs.
